(** * check_sonarqube_issues.py: fetch, score, rank and tabulate SonarQube issues

    A shallow embedding of [python_scripts/check_sonarqube_issues.py] and the
    properties its specification states about it.

    Python values are embedded as follows.
    - An issue is a JSON object whose fields hold scalars: a [gmap] from
      field names to [value]s (nested arrays and objects inside an issue, and
      booleans, are outside the model).
    - Python floats are IEEE 754 binary64 numbers: the kernel's [float].
    - A string is a [string]; its characters are the model's code points.
    - [print], [sys.exit], uncaught exceptions and the HTTP requests of the
      session are effects of a state-and-outcome monad, [prog]. *)

From Stdlib Require Import ZArith String Ascii List Permutation Sorted.
From Stdlib Require Import Floats.PrimFloat Floats.FloatOps Floats.SpecFloat.
From stdpp Require Import base option list gmap strings pretty.

Set Default Proof Using "Type".
Local Open Scope string_scope.
Local Open Scope list_scope.
Local Open Scope Z_scope.

(** ** Values *)

Module Py.

(** Python's two number types as the program meets them. *)
Inductive num :=
  | Int (z : Z)
  | Float (f : float).

(** The scalars a field of a parsed JSON object holds. *)
Inductive value :=
  | VNone
  | VNum (n : num)
  | VStr (s : string).

(** The exceptions the program can raise and does not catch. *)
Inductive exn :=
  | KeyError (key : string)
  | ValueError
  | TypeError
  | AttributeError.

(** How a computation ends: with a value, through [sys.exit], with an
    uncaught exception, or (for the bounded loop only) without an answer
    within the iterations allowed. *)
Inductive outcome (A : Type) :=
  | Ret (a : A)
  | Exit (code : Z)
  | Raise (e : exn)
  | OutOfFuel.
Arguments Ret {A} a.
Arguments Exit {A} code.
Arguments Raise {A} e.
Arguments OutOfFuel {A}.

Definition obind {A B} (m : outcome A) (k : A -> outcome B) : outcome B :=
  match m with
  | Ret a => k a
  | Exit c => Exit c
  | Raise e => Raise e
  | OutOfFuel => OutOfFuel
  end.

(** [int(z)] converted to a float, rounding to nearest even as CPython does. *)
Definition float_of_Z (z : Z) : float :=
  SF2Prim (binary_normalize prec emax z 0 false).

(** A finite float as [m * 2^e], exactly. *)
Inductive exact :=
  | ENaN
  | EInf (negative : bool)
  | EFin (m e : Z).

Definition exact_of_float (f : float) : exact :=
  match Prim2SF f with
  | S754_nan => ENaN
  | S754_infinity s => EInf s
  | S754_zero _ => EFin 0 0
  | S754_finite s m e => EFin (if s then Z.neg m else Z.pos m) e
  end.

(** [z ? m * 2^e], computed over the integers. *)
Definition Z_compare_fin (z m e : Z) : comparison :=
  if 0 <=? e then z ?= m * 2 ^ e else z * 2 ^ (- e) ?= m.

(** Python compares an int with a float by value, without rounding the int. *)
Definition int_float_compare (z : Z) (f : float) : option comparison :=
  match exact_of_float f with
  | ENaN => None
  | EInf true => Some Gt
  | EInf false => Some Lt
  | EFin m e => Some (Z_compare_fin z m e)
  end.

(** [a == b] on numbers. *)
Definition num_eqb (a b : num) : bool :=
  match a, b with
  | Int x, Int y => x =? y
  | Float x, Float y => PrimFloat.eqb x y
  | Int x, Float y => bool_decide (int_float_compare x y = Some Eq)
  | Float x, Int y => bool_decide (int_float_compare y x = Some Eq)
  end.

(** [a < b] on numbers. *)
Definition num_ltb (a b : num) : bool :=
  match a, b with
  | Int x, Int y => x <? y
  | Float x, Float y => PrimFloat.ltb x y
  | Int x, Float y => bool_decide (int_float_compare x y = Some Lt)
  | Float x, Int y => bool_decide (int_float_compare y x = Some Gt)
  end.

(** Unary minus. *)
Definition num_neg (a : num) : num :=
  match a with
  | Int x => Int (- x)
  | Float x => Float (PrimFloat.opp x)
  end.

(** Unary minus on a value. *)
Definition neg (v : value) : outcome num :=
  match v with
  | VNum n => Ret (num_neg n)
  | _ => Raise TypeError
  end.

(** [a == b] on values; values of different kinds are never equal. *)
Definition eqb (a b : value) : bool :=
  match a, b with
  | VNone, VNone => true
  | VNum x, VNum y => num_eqb x y
  | VStr x, VStr y => String.eqb x y
  | _, _ => false
  end.

(** [a < b] on values: numbers by value, strings lexicographically; every
    other pairing is a [TypeError]. *)
Definition ltb (a b : value) : outcome bool :=
  match a, b with
  | VNum x, VNum y => Ret (num_ltb x y)
  | VStr x, VStr y => Ret (String.ltb x y)
  | _, _ => Raise TypeError
  end.

(** [not v]: the truth value of an optional string such as
    [os.environ.get(name)]. *)
Definition falsy (v : option string) : bool :=
  match v with
  | None => true
  | Some s => String.eqb s ""
  end.

(** [s[:n]] for [0 <= n]. *)
Fixpoint str_take (n : nat) (s : string) : string :=
  match n, s with
  | S n', String c s' => String c (str_take n' s')
  | _, _ => EmptyString
  end.

(** [s.split(sep)] for a separator of one character: never empty. *)
Fixpoint split (sep : ascii) (s : string) : list string :=
  match s with
  | EmptyString => [EmptyString]
  | String c s' =>
      if Ascii.eqb c sep then EmptyString :: split sep s'
      else match split sep s' with
           | seg :: segs => String c seg :: segs
           | [] => [String c EmptyString]
           end
  end.

(** [s.rstrip(c)] for a single character [c]. *)
Fixpoint rstrip (c : ascii) (s : string) : string :=
  match s with
  | EmptyString => EmptyString
  | String a s' =>
      match rstrip c s' with
      | EmptyString => if Ascii.eqb a c then EmptyString else String a EmptyString
      | r => String a r
      end
  end.

(** [c * n] for a one-character string. *)
Definition str_repeat (c : ascii) (n : nat) : string :=
  string_of_list_ascii (repeat c n).

(** [l[:n]] on lists, for any integer [n]. *)
Definition slice_to {A} (l : list A) (n : Z) : list A :=
  if 0 <=? n then take (Z.to_nat n) l
  else take (length l - Z.to_nat (- n))%nat l.

(** [l.index(v)]: the first position holding a value equal to [v]. *)
Fixpoint index (l : list string) (v : value) : outcome Z :=
  match l with
  | [] => Raise ValueError
  | s :: l' =>
      if eqb (VStr s) v then Ret 0
      else obind (index l' v) (fun i => Ret (1 + i))
  end.

End Py.

Import Py.

(** ** The priority scorer *)

Definition severity_scores : gmap string Z :=
  list_to_map
    [("BLOCKER", 5); ("CRITICAL", 4); ("MAJOR", 3); ("MINOR", 2); ("INFO", 1)].

(** The literals [1.3] and [1.2] are no binary64 numbers: Rocq reads them, as
    Python does, as the nearest ones. *)
#[local] Set Warnings "-inexact-float".

Definition type_multiplier : gmap string float :=
  list_to_map
    [("VULNERABILITY", 1.5%float); ("BUG", 1.3%float);
     ("SECURITY_HOTSPOT", 1.2%float); ("CODE_SMELL", 1.0%float)].

(** [d.get(key, default)] for a dict whose keys are all strings: a key that
    is not a string is not found. *)
Definition dict_get {V} (d : gmap string V) (key : value) (dflt : V) : V :=
  match key with
  | VStr s => default dflt (d !! s)
  | _ => dflt
  end.

(** [SonarQubeClient.get_priority_score]: an int times a float, hence a
    float. *)
Definition get_priority_score (severity type_ : value) : float :=
  let severity_score := dict_get severity_scores severity 0 in
  let multiplier := dict_get type_multiplier type_ 1.0%float in
  PrimFloat.mul (float_of_Z severity_score) multiplier.

(** ** Effects: output, exit, and the HTTP session *)

(** What [session.get(url, params=params, timeout=10)] sends. *)
Record request := Request {
  req_url : string;
  req_auth : string * string;
  componentKeys : string;
  branch : string;
  statuses : string;
  types : string;
  p : Z;
  ps : Z;
  timeout : Z }.

Abbreviation issue := (gmap string value).

(** The body [response.json()] of a successful answer: the fields the client
    reads, each present or not. The bodies of the model are JSON objects
    whose "issues", when present, is a list of issues and whose "total", when
    present, is an integer. Other bodies are outside the model; on some of
    them the code raises ([AttributeError] from [data.get] when the body is
    no object, [TypeError] from the comparison when "total" is null). *)
Record payload := Payload {
  issues_field : option (list issue);
  total_field : option Z }.

(** What a request comes back with: a [requests.exceptions.RequestException]
    (a timeout, a connection error, or the [HTTPError] that
    [raise_for_status] raises on a non-success status), whose text is
    [detail], or a body. *)
Inductive response :=
  | RequestException (detail : string)
  | Json (data : payload).

(** The lines printed so far and the requests sent so far, oldest first. *)
Record world := World {
  stdout : list string;
  sent : list request }.

Definition prog (A : Type) : Type := world -> outcome A * world.

#[export] Instance outcome_ret : MRet outcome := @Ret.
#[export] Instance outcome_bind : MBind outcome := fun A B k m => obind m k.

#[export] Instance prog_ret : MRet prog := fun A a w => (Ret a, w).
#[export] Instance prog_bind : MBind prog := fun A B k m w =>
  match m w with
  | (Ret a, w') => k a w'
  | (Exit c, w') => (Exit c, w')
  | (Raise e, w') => (Raise e, w')
  | (OutOfFuel, w') => (OutOfFuel, w')
  end.

Definition lift {A} (o : outcome A) : prog A := fun w => (o, w).

Definition print (line : string) : prog unit := fun w =>
  (Ret tt, World (stdout w ++ [line]) (sent w)).

Definition sys_exit {A} (code : Z) : prog A := lift (Exit code).

(** The exit status of the process: 0 when [main] returns, the argument of
    [sys.exit], and 1 after an uncaught exception. *)
Definition exit_status {A} (o : outcome A) : option Z :=
  match o with
  | Ret _ => Some 0
  | Exit c => Some c
  | Raise _ => Some 1
  | OutOfFuel => None
  end.

(** [issue[key]]. *)
Definition getitem (d : issue) (key : string) : outcome value :=
  match d !! key with
  | Some v => Ret v
  | None => Raise (KeyError key)
  end.

Fixpoint traverse {A B} (f : A -> outcome B) (l : list A) : outcome (list B) :=
  match l with
  | [] => Ret []
  | x :: l' => y ← f x; ys ← traverse f l'; Ret (y :: ys)
  end.

(** ** The client *)

Record SonarQubeClient := Client {
  base_url : string;
  token : string;
  project_key : string }.

(** [SonarQubeClient.__init__]. *)
Definition new_client (base_url token project_key : string) : SonarQubeClient :=
  Client (rstrip "/" base_url) token project_key.

Definition page_size : Z := 100.

Definition search_request (self : SonarQubeClient) (page : Z) : request :=
  {| req_url := base_url self +:+ "/api/issues/search";
     req_auth := (token self, "");
     componentKeys := project_key self;
     branch := "main";
     statuses := "OPEN";
     types := "CODE_SMELL";
     p := page;
     ps := page_size;
     timeout := 10 |}.

Definition len {A} (l : list A) : Z := Z.of_nat (length l).

Section Program.

(** The service: what it answers to a request, given the requests it has
    seen before. *)
Variable server : list request -> request -> response.

(** The libraries the program prints through: [tabulate.tabulate] with its
    headers and table format, and [str] of a float. *)
Variable tabulate : list (list value) -> list string -> string -> string.
Variable float_repr : float -> string.

Definition session_get (r : request) : prog response := fun w =>
  (Ret (server (sent w) r), World (stdout w) (sent w ++ [r])).

(** The [while] loop of [get_issues], one iteration per unit of fuel. *)
Fixpoint get_issues_loop (fuel : nat) (self : SonarQubeClient) (limit : Z)
    (all_issues : list issue) (page : Z) : prog (list issue) :=
  if len all_issues <? limit then
    match fuel with
    | O => lift OutOfFuel
    | S fuel' =>
        response ← session_get (search_request self page);
        match response with
        | RequestException e =>
            print ("Error fetching issues: " +:+ e);; sys_exit 1
        | Json data =>
            let issues := default [] (issues_field data) in
            match issues with
            | [] => mret all_issues
            | _ :: _ =>
                let all_issues := all_issues ++ issues in
                if default 0 (total_field data) <=? len all_issues
                then mret all_issues
                else get_issues_loop fuel' self limit all_issues (page + 1)
            end
        end
    end
  else mret all_issues.

(** [SonarQubeClient.get_issues]. Every iteration that goes on has added an
    issue, so [limit] iterations are enough; see [get_issues_loop_spec]. *)
Definition get_issues (self : SonarQubeClient) (limit : Z) : prog (list issue) :=
  all_issues ← get_issues_loop (Z.to_nat limit) self limit [] 1;
  mret (slice_to all_issues limit).

(** ** Scoring and ranking *)

(** The body of the scoring loop of [main]. *)
Definition score_issue (x : issue) : outcome issue :=
  severity ← getitem x "severity";
  type_ ← getitem x "type";
  let priority_score := get_priority_score severity type_ in
  Ret (<["priority_score" := VNum (Float priority_score)]> x).

Definition score_issues (issues : list issue) : outcome (list issue) :=
  traverse score_issue issues.

Definition severity_order : list string :=
  ["BLOCKER"; "CRITICAL"; "MAJOR"; "MINOR"; "INFO"].

(** The [key] function of the sort. *)
Definition sort_key (x : issue) : outcome (num * Z) :=
  score ← getitem x "priority_score";
  negated ← neg score;
  severity ← getitem x "severity";
  i ← index severity_order severity;
  Ret (negated, i).

(** [a < b] on the keys, as Python compares tuples: by the first components
    when they differ, else by the second ones. *)
Definition key_ltb (a b : num * Z) : bool :=
  if num_eqb a.1 b.1 then
    if a.2 =? b.2 then false else a.2 <? b.2
  else num_ltb a.1 b.1.

(** [list.sort] is stable and compares with [<] only. Where [<] orders the
    keys, its result is the one insertion gives: [x], which stood before the
    elements of [l], moves behind those that are smaller. *)
Fixpoint insert_sorted {A} (k : num * Z) (x : A) (l : list ((num * Z) * A)) :
    list ((num * Z) * A) :=
  match l with
  | [] => [(k, x)]
  | (k', y) :: l' =>
      if key_ltb k' k then (k', y) :: insert_sorted k x l'
      else (k, x) :: (k', y) :: l'
  end.

Fixpoint sort_keyed {A} (l : list ((num * Z) * A)) : list ((num * Z) * A) :=
  match l with
  | [] => []
  | (k, x) :: l' => insert_sorted k x (sort_keyed l')
  end.

(** [issues.sort(key=...)]: the keys are computed first, for every issue in
    turn. *)
Definition sort_issues (issues : list issue) : outcome (list issue) :=
  keys ← traverse sort_key issues;
  Ret (map snd (sort_keyed (zip keys issues))).

(** ** The table and the summary *)

(** A [defaultdict(int)], its keys in the order of their insertion. A dict
    finds a key by identity before equality, and the NaN of a parsed JSON
    body is one object: two NaNs are the same key. *)
Definition counter : Type := list (value * Z).

Definition is_nan (v : value) : bool :=
  match v with
  | VNum (Float f) => PrimFloat.is_nan f
  | _ => false
  end.

Definition same_key (a b : value) : bool :=
  eqb a b || (is_nan a && is_nan b).

(** [counts[key] += 1]. *)
Fixpoint counter_incr (key : value) (counts : counter) : counter :=
  match counts with
  | [] => [(key, 1)]
  | (k, n) :: counts' =>
      if same_key k key then (k, n + 1) :: counts'
      else (k, n) :: counter_incr key counts'
  end.

(** [counts.get(key, 0)]. *)
Fixpoint counter_get (key : value) (counts : counter) : Z :=
  match counts with
  | [] => 0
  | (k, n) :: counts' => if same_key k key then n else counter_get key counts'
  end.

(** [issue.get('message', 'N/A')[:60]]. *)
Definition message_cell (x : issue) : outcome value :=
  match default (VStr "N/A") (x !! "message") with
  | VStr s => Ret (VStr (str_take 60 s))
  | _ => Raise TypeError
  end.

(** [issue.get('component', 'N/A').split(':')[-1]]. *)
Definition component_cell (x : issue) : outcome value :=
  match default (VStr "N/A") (x !! "component") with
  | VStr s => Ret (VStr (List.last (split ":" s) ""))
  | _ => Raise AttributeError
  end.

(** [issue.get('line', '-')]. *)
Definition line_cell (x : issue) : value :=
  default (VStr "-") (x !! "line").

Record table := Table {
  table_data : list (list value);
  severity_counts : counter;
  type_counts : counter }.

(** The body of the loop over [enumerate(top_issues, 1)]. *)
Definition table_row (idx : Z) (x : issue) (t : table) : outcome table :=
  severity ← getitem x "severity";
  type_ ← getitem x "type";
  let severity_counts := counter_incr severity (severity_counts t) in
  let type_counts := counter_incr type_ (type_counts t) in
  message ← message_cell x;
  component ← component_cell x;
  let row := [VNum (Int idx); severity; type_; message; component; line_cell x] in
  Ret (Table (table_data t ++ [row]) severity_counts type_counts).

Fixpoint build_table (idx : Z) (top_issues : list issue) (t : table) :
    outcome table :=
  match top_issues with
  | [] => Ret t
  | x :: rest => t' ← table_row idx x t; build_table (idx + 1) rest t'
  end.

(** [sorted(keys)], which raises as soon as it compares two values that have
    no order. *)
Fixpoint insert_value (x : value) (l : list value) : outcome (list value) :=
  match l with
  | [] => Ret [x]
  | y :: l' =>
      lt ← ltb y x;
      if lt : bool then r ← insert_value x l'; Ret (y :: r)
      else Ret (x :: y :: l')
  end.

Fixpoint sorted (l : list value) : outcome (list value) :=
  match l with
  | [] => Ret []
  | x :: l' => s ← sorted l'; insert_value x s
  end.

(** [str(v)], as an f-string formats a value. *)
Definition to_str (v : value) : string :=
  match v with
  | VNone => "None"
  | VNum (Int z) => pretty z
  | VNum (Float f) => float_repr f
  | VStr s => s
  end.

Fixpoint for_each {A} (body : A -> prog unit) (l : list A) : prog unit :=
  match l with
  | [] => mret tt
  | x :: l' => body x;; for_each body l'
  end.

Definition nl : string := String "010"%char "".
Definition rule : string := str_repeat "=" 120.
Definition headers : list string :=
  ["#"; "Severity"; "Type"; "Message"; "Component"; "Line"].

(** ** The program *)

(** [main] from its scoring loop to its end: what it does with the issues
    fetched, when there are some. *)
Definition report (issues : list issue) : prog unit :=
  issues ← lift (score_issues issues);
  issues ← lift (sort_issues issues);
  let top_issues := take 50 issues in
  t ← lift (build_table 1 top_issues (Table [] [] []));
  print (nl +:+ rule);;
  print "TOP 50 SONARQUBE ISSUES (sorted by priority)";;
  print (rule +:+ nl);;
  print (tabulate (table_data t) headers "grid");;
  print (nl +:+ rule);;
  print "SUMMARY";;
  print (rule +:+ nl);;
  print ("Total issues fetched: " +:+ pretty (len issues));;
  print ("Displayed (top 50): " +:+ pretty (len top_issues) +:+ nl);;
  print "Issues by Severity:";;
  for_each (fun severity =>
      let count := counter_get (VStr severity) (severity_counts t) in
      if 0 <? count
      then print ("  " +:+ severity +:+ ": " +:+ pretty count)
      else mret tt)
    severity_order;;
  print (nl +:+ "Issues by Type:");;
  keys ← lift (sorted (map fst (type_counts t)));
  for_each (fun type_ =>
      print ("  " +:+ to_str type_ +:+ ": "
             +:+ pretty (counter_get type_ (type_counts t))))
    keys.

(** [main], run in the environment [environ]. *)
Definition main (environ : gmap string string) : prog unit :=
  let token := environ !! "SONARQ_TOKEN" in
  let base_url := default "https://sonarcloud.io" (environ !! "SONARQ_BASE_URL") in
  let project_key :=
    default "FreeSideNomad_messaging-platform" (environ !! "SONARQ_PROJECT_KEY") in
  if falsy token then
    print "Error: SONARQ_TOKEN environment variable not set";; sys_exit 1
  else
    let token := default "" token in
    print ("Connecting to SonarQube at " +:+ base_url);;
    print ("Project key: " +:+ project_key);;
    print "";;
    let client := new_client base_url token project_key in
    print "Fetching issues...";;
    issues ← get_issues client 500;
    match issues with
    | [] => print "No issues found."
    | _ :: _ => report issues
    end.

End Program.

(** ** Mock services and the vocabulary of the statements *)

(** A service that holds the issues [db], serves them in pages of the size
    asked for, and reports their number as the total. *)
Definition paged_service (db : list issue) (_ : list request) (r : request) :
    response :=
  Json {| issues_field :=
            Some (take (Z.to_nat (ps r)) (drop (Z.to_nat ((p r - 1) * ps r)) db));
          total_field := Some (len db) |}.

(** A service whose every page is the same [page], whatever it is asked,
    and which reports [total]. *)
Definition constant_service (page : list issue) (total : Z)
    (_ : list request) (_ : request) : response :=
  Json {| issues_field := Some page; total_field := Some total |}.

(** An issue with the fields of the data model. *)
Definition make_issue (severity type_ message component : string)
    (line : option Z) : issue :=
  let x : issue :=
    list_to_map [("severity", VStr severity); ("type", VStr type_);
                 ("message", VStr message); ("component", VStr component)] in
  match line with
  | Some n => <["line" := VNum (Int n)]> x
  | None => x
  end.

Definition sample_issue : issue :=
  make_issue "MAJOR" "CODE_SMELL" "Remove this unused import."
    "project:src/foo/Bar.java" (Some 12).

(** An environment with a token, a service that is down, and stand-ins for
    the two printing libraries. *)
Definition sample_environ : gmap string string :=
  {[ "SONARQ_TOKEN" := "secret" ]}.

Definition failing_service (detail : string) (_ : list request) (_ : request) :
    response :=
  RequestException detail.

Definition no_table (_ : list (list value)) (_ : list string) (_ : string) :
    string := "".

Definition no_repr (_ : float) : string := "".

Definition minor_issue : issue :=
  make_issue "MINOR" "VULNERABILITY"
    "Use a stronger hash function here: MD5 is broken and must not protect data."
    "src/hash.py" None.

Definition odd_issue : issue :=
  make_issue "UNRANKED" "CODE_SMELL" "Rename this field." "project:src/d.py" None.

Definition sample_client : SonarQubeClient :=
  new_client "https://sonarcloud.io/" "secret" "project".

(** The answers to the requests [new], sent one after the other to a server
    that had seen [history]. *)
Fixpoint replay (server : list request -> request -> response)
    (history new : list request) : list response :=
  match new with
  | [] => []
  | r :: new' => server history r :: replay server (history ++ [r]) new'
  end.

(** The requests for the [n] pages from [page] on. *)
Fixpoint requests_from (self : SonarQubeClient) (page : Z) (n : nat) :
    list request :=
  match n with
  | O => []
  | S n' => search_request self page :: requests_from self (page + 1) n'
  end.

(** The issues an answer adds to the accumulated list. *)
Definition page_issues (r : response) : list issue :=
  match r with
  | Json data => default [] (issues_field data)
  | RequestException _ => []
  end.

Definition is_json (r : response) : Prop :=
  match r with
  | Json _ => True
  | RequestException _ => False
  end.

(** A program that sends no request. *)
Definition offline {A} (m : prog A) : Prop := ∀ w, sent (m w).2 = sent w.

(** The configuration [main] reads from the environment, and the state it
    has reached when it calls [get_issues]. *)
Definition configured_client (environ : gmap string string) : SonarQubeClient :=
  new_client (default "https://sonarcloud.io" (environ !! "SONARQ_BASE_URL"))
    (default "" (environ !! "SONARQ_TOKEN"))
    (default "FreeSideNomad_messaging-platform"
       (environ !! "SONARQ_PROJECT_KEY")).

Definition banner (environ : gmap string string) : list string :=
  ["Connecting to SonarQube at "
     +:+ default "https://sonarcloud.io" (environ !! "SONARQ_BASE_URL");
   "Project key: "
     +:+ default "FreeSideNomad_messaging-platform"
           (environ !! "SONARQ_PROJECT_KEY");
   ""; "Fetching issues..."].

Definition at_fetch (environ : gmap string string) (w : world) : world :=
  World (stdout w ++ banner environ) (sent w).

(** An issue as the data model has it: with a severity and a type, and with
    a message and a component that are strings. *)
Definition well_formed (x : issue) : Prop :=
  is_Some (x !! "severity") ∧ is_Some (x !! "type")
  ∧ (∃ m, x !! "message" = Some (VStr m))
  ∧ (∃ c, x !! "component" = Some (VStr c)).

(** [c in s]. *)
Fixpoint contains (c : ascii) (s : string) : bool :=
  match s with
  | EmptyString => false
  | String a s' => Ascii.eqb a c || contains c s'
  end.

(** [sep.join(l)]. *)
Fixpoint join (sep : ascii) (l : list string) : string :=
  match l with
  | [] => ""
  | [x] => x
  | x :: l' => x +:+ String sep (join sep l')
  end.

(** An issue with its score set. *)
Definition with_score (score : float) (x : issue) : issue :=
  <["priority_score" := VNum (Float score)]> x.

(** The score and the rank of the severity an issue carries. *)
Definition score_of (x : issue) : option float :=
  match x !! "priority_score" with
  | Some (VNum (Float f)) => Some f
  | _ => None
  end.

Definition severity_index (x : issue) : option Z :=
  match x !! "severity" with
  | Some v => match index severity_order v with Ret i => Some i | _ => None end
  | None => None
  end.

(** The scores an issue with one of the five severities can have, each with
    the rank of the severity, and the sort key of each. *)
Definition score_classes : list (float * Z) :=
  '(i, sev) ← zip [0; 1; 2; 3; 4] severity_order;
  mult ← [1.5; 1.3; 1.2; 1.0]%float;
  [(PrimFloat.mul (float_of_Z (dict_get severity_scores (VStr sev) 0)) mult, i)].

Definition key_of_class (c : float * Z) : num * Z :=
  (Float (PrimFloat.opp c.1), c.2).

(** The order of the sorted list: [b], with its key, is not smaller than
    [a]. *)
Definition key_le {A} (a b : (num * Z) * A) : Prop := key_ltb b.1 a.1 = false.

(** [a] may stand before [b] in the ranking. *)
Definition ranked_before (a b : float * Z) : bool :=
  PrimFloat.leb b.1 a.1 && (if PrimFloat.eqb a.1 b.1 then a.2 <=? b.2 else true).

(** The issues of [l] whose field [field] is the string [s], counted. *)
Definition has_field (field s : string) (x : issue) : bool :=
  match x !! field with
  | Some (VStr s') => String.eqb s' s
  | _ => false
  end.

Definition count_field (field s : string) (l : list issue) : Z :=
  len (filter (λ x, has_field field s x) l).

(** An outcome that is a return or an exception. *)
Definition settled {A} (o : outcome A) : Prop :=
  match o with
  | Ret _ | Raise _ => True
  | Exit _ | OutOfFuel => False
  end.

(** A program that ends by returning or raising, whatever the state. *)
Definition settles {A} (m : prog A) : Prop := ∀ w, settled (m w).1.

(** An issue as the service sends it: a ranked severity, and a type, a
    message and a component that are strings. *)
Definition standard (x : issue) : Prop :=
  (∃ s, x !! "severity" = Some (VStr s) ∧ s ∈ severity_order)
  ∧ (∃ t, x !! "type" = Some (VStr t))
  ∧ (∃ m, x !! "message" = Some (VStr m))
  ∧ (∃ c, x !! "component" = Some (VStr c)).

Definition is_str (v : value) : Prop := ∃ s, v = VStr s.

(** The lines of the two breakdowns of the summary. *)
Definition severity_lines (counts : counter) : list string :=
  severity ← severity_order;
  if 0 <? counter_get (VStr severity) counts
  then ["  " +:+ severity +:+ ": " +:+ pretty (counter_get (VStr severity) counts)]
  else [].

Definition type_lines (float_repr : float → string) (counts : counter)
    (keys : list value) : list string :=
  (λ type_, "  " +:+ to_str float_repr type_ +:+ ": "
            +:+ pretty (counter_get type_ counts)) <$> keys.

Definition info_issue : issue :=
  make_issue "INFO" "CODE_SMELL" "Add a comment here." "project:src/e.py" None.

Definition twin_issue : issue :=
  make_issue "MAJOR" "CODE_SMELL" "Rename this variable."
    "project:src/foo/Baz.java" (Some 40).

(** Two issues are tied in the ranking: their scores are equal and the
    ranks of their severities are. *)
Definition tied (x y : issue) : bool :=
  match score_of x, severity_index x, score_of y, severity_index y with
  | Some sx, Some ix, Some sy, Some iy => PrimFloat.eqb sx sy && (ix =? iy)
  | _, _, _, _ => false
  end.

(** The keys that neither precede nor follow [k]. *)
Definition key_eqv (k a : num * Z) : bool :=
  negb (key_ltb a k) && negb (key_ltb k a).

(** * Properties *)

(** [enumerate H] splits a membership [H] in an explicit list into its
    cases. *)
Ltac enumerate H :=
  repeat (apply elem_of_cons in H as [H|H]; [simplify_eq|]);
  [..|by apply elem_of_nil in H].

(** [by_decide] settles a closed decidable goal by evaluation. *)
Ltac by_decide := apply (bool_decide_unpack _); vm_compute; exact I.

(** ** The priority scorer *)

Lemma severity_scores_lookup (s : string) :
  severity_scores !! s =
    if decide (s = "BLOCKER") then Some 5
    else if decide (s = "CRITICAL") then Some 4
    else if decide (s = "MAJOR") then Some 3
    else if decide (s = "MINOR") then Some 2
    else if decide (s = "INFO") then Some 1
    else None.
Proof.
  unfold severity_scores. cbn [list_to_map foldr uncurry fst snd].
  repeat (rewrite lookup_insert; case_decide; [subst; done|];
          case_decide; [congruence|]).
  apply lookup_empty.
Qed.

Lemma type_multiplier_lookup (t : string) :
  type_multiplier !! t =
    if decide (t = "VULNERABILITY") then Some 1.5%float
    else if decide (t = "BUG") then Some 1.3%float
    else if decide (t = "SECURITY_HOTSPOT") then Some 1.2%float
    else if decide (t = "CODE_SMELL") then Some 1.0%float
    else None.
Proof.
  unfold type_multiplier. cbn [list_to_map foldr uncurry fst snd].
  repeat (rewrite lookup_insert; case_decide; [subst; done|];
          case_decide; [congruence|]).
  apply lookup_empty.
Qed.

(** The multiplier of any type whatever is one of five floats. *)
Lemma multiplier_cases (type_ : value) :
  dict_get type_multiplier type_ 1.0%float
    ∈ [1.5%float; 1.3%float; 1.2%float; 1.0%float].
Proof.
  destruct type_ as [|n|t]; cbn [dict_get]; [set_solver..|].
  rewrite type_multiplier_lookup.
  repeat (case_decide; [cbn [default]; set_solver|]). set_solver.
Qed.

Lemma severity_score_unknown (severity : value) :
  (∀ s, severity = VStr s → s ∉ severity_order) →
  dict_get severity_scores severity 0 = 0.
Proof.
  intros Hs. destruct severity as [|n|s]; cbn [dict_get]; [done..|].
  rewrite severity_scores_lookup. specialize (Hs s eq_refl).
  repeat (case_decide; [subst; exfalso; apply Hs; by_decide|]). done.
Qed.

(** A severity outside the table scores 0 with every type. *)
Lemma get_priority_score_unknown (severity type_ : value) :
  (∀ s, severity = VStr s → s ∉ severity_order) →
  get_priority_score severity type_ = 0%float.
Proof.
  intros Hs. unfold get_priority_score.
  rewrite (severity_score_unknown _ Hs).
  pose proof (multiplier_cases type_) as Hm.
  enumerate Hm; rewrite Hm; reflexivity.
Qed.

(** C2. For every severity and type of the two tables, [get_priority_score]
    returns the base score of the severity (BLOCKER 5, CRITICAL 4, MAJOR 3,
    MINOR 2, INFO 1) times the multiplier of the type (VULNERABILITY 1.5,
    BUG 1.3, SECURITY_HOTSPOT 1.2, CODE_SMELL 1.0), as a product of floats;
    for a severity outside the table it returns 0 whatever the type; for a
    type outside the table the multiplier is 1.0. *)
Theorem get_priority_score_tables :
  (∀ sev base ty mult,
      (sev, base) ∈ [("BLOCKER", 5); ("CRITICAL", 4); ("MAJOR", 3);
                     ("MINOR", 2); ("INFO", 1)] →
      (ty, mult) ∈ [("VULNERABILITY", 1.5%float); ("BUG", 1.3%float);
                    ("SECURITY_HOTSPOT", 1.2%float); ("CODE_SMELL", 1.0%float)] →
      get_priority_score (VStr sev) (VStr ty) = (float_of_Z base * mult)%float)
  ∧ (∀ severity type_,
      (∀ s, severity = VStr s → s ∉ severity_order) →
      get_priority_score severity type_ = 0%float)
  ∧ (∀ sev base type_,
      (sev, base) ∈ [("BLOCKER", 5); ("CRITICAL", 4); ("MAJOR", 3);
                     ("MINOR", 2); ("INFO", 1)] →
      (∀ t, type_ = VStr t →
            t ∉ ["VULNERABILITY"; "BUG"; "SECURITY_HOTSPOT"; "CODE_SMELL"]) →
      get_priority_score (VStr sev) type_ = (float_of_Z base * 1.0)%float).
Proof.
  split; [|split].
  - intros sev base ty mult Hs Ht.
    enumerate Hs; enumerate Ht; reflexivity.
  - intros severity type_ Hs. by apply get_priority_score_unknown.
  - intros sev base type_ Hs Ht. unfold get_priority_score.
    assert (dict_get type_multiplier type_ 1.0%float = 1.0%float) as ->.
    { destruct type_ as [|n|t]; cbn [dict_get]; [done..|].
      rewrite type_multiplier_lookup. specialize (Ht t eq_refl).
      repeat (case_decide; [subst; exfalso; apply Ht; by_decide|]). done. }
    enumerate Hs; reflexivity.
Qed.

Lemma get_priority_score_tables_witness :
  get_priority_score (VStr "BLOCKER") (VStr "VULNERABILITY") = 7.5%float
  ∧ get_priority_score (VStr "TRIVIAL") (VStr "BUG") = 0%float
  ∧ get_priority_score (VStr "MAJOR") (VStr "DEFECT") = 3%float.
Proof.
  destruct get_priority_score_tables as (Htable & Hseverity & Htype).
  split; [|split].
  - rewrite (Htable "BLOCKER" 5 "VULNERABILITY" 1.5%float).
    + reflexivity.
    + apply (bool_decide_unpack _). vm_compute. exact I.
    + apply elem_of_cons. left. reflexivity.
  - apply Hseverity. intros s [= <-].
    apply (bool_decide_unpack _). vm_compute. exact I.
  - rewrite (Htype "MAJOR" 3 (VStr "DEFECT")).
    + reflexivity.
    + apply (bool_decide_unpack _). vm_compute. exact I.
    + intros t [= <-]. apply (bool_decide_unpack _). vm_compute. exact I.
Defined.

(** The scores of the twenty pairs, as Python prints them: the product of
    floats is the nearest float, and for (MAJOR, BUG) this is not 3.9. *)
Example get_priority_score_values :
  map (λ sev, map (λ ty, get_priority_score (VStr sev) (VStr ty))
                  ["VULNERABILITY"; "BUG"; "SECURITY_HOTSPOT"; "CODE_SMELL"])
      severity_order
  = [[7.5; 6.5; 6; 5]; [6; 5.2; 4.8; 4]; [4.5; 3.9000000000000004; 3.5999999999999996; 3];
     [3; 2.6; 2.4; 2]; [1.5; 1.3; 1.2; 1]]%float.
Proof. reflexivity. Qed.

(** ** The fetch loop *)

Section Fetch.

Context (server : list request → request → response).

Lemma get_issues_loop_unfold fuel self limit all_issues page w :
  get_issues_loop server (S fuel) self limit all_issues page w =
    if len all_issues <? limit then
      let r := search_request self page in
      let w1 := World (stdout w) (sent w ++ [r]) in
      match server (sent w) r with
      | RequestException e =>
          (Exit 1, World (stdout w ++ ["Error fetching issues: " +:+ e])
                         (sent w ++ [r]))
      | Json data =>
          match default [] (issues_field data) with
          | [] => (Ret all_issues, w1)
          | x :: l =>
              if default 0 (total_field data) <=? len (all_issues ++ x :: l)
              then (Ret (all_issues ++ x :: l), w1)
              else get_issues_loop server fuel self limit
                     (all_issues ++ x :: l) (page + 1) w1
          end
      end
    else (Ret all_issues, w).
Proof.
  cbn [get_issues_loop]. destruct (len all_issues <? limit); [|done].
  unfold mbind, prog_bind, session_get at 1. cbn [stdout sent].
  destruct (server _ _) as [e|data]; [done|].
  destruct (default [] (issues_field data)) as [|x l]; [done|].
  by destruct (_ <=? _).
Qed.

Lemma get_issues_loop_done fuel self limit all_issues page w :
  limit ≤ len all_issues →
  get_issues_loop server fuel self limit all_issues page w = (Ret all_issues, w).
Proof.
  intros Hdone. apply Z.ltb_ge in Hdone.
  destruct fuel; cbn [get_issues_loop]; by rewrite Hdone.
Qed.

Lemma replay_lookup history new j :
  replay server history new !! j
  = (λ r, server (history ++ take j new) r) <$> new !! j.
Proof.
  revert history j. induction new as [|r new IH]; intros history j; [done|].
  destruct j as [|j]; cbn [replay].
  - cbn. by rewrite app_nil_r.
  - cbn [lookup list_lookup take]. rewrite IH. cbn [lookup list_lookup].
    destruct (new !! j); [|done]. cbn. by rewrite <- app_assoc.
Qed.

Lemma length_replay history new :
  length (replay server history new) = length new.
Proof.
  revert history. induction new as [|r new IH]; intros history; [done|].
  cbn. by rewrite IH.
Qed.

Lemma length_requests_from self page n :
  length (requests_from self page n) = n.
Proof. revert page. induction n as [|n IH]; intros page; [done|]. cbn. by rewrite IH. Qed.

(** What a run of the loop does: it asks for the pages from [page] on, one
    request each, and either every answer is a body and the loop returns the
    accumulated issues without printing, or the last answer is a failure,
    the only line printed is its diagnostic and the process exits with 1. *)
Lemma get_issues_loop_spec fuel self limit all_issues page w :
  (Z.to_nat (limit - len all_issues) ≤ fuel)%nat →
  ∃ n : nat,
    let new := requests_from self page n in
    let answers := replay server (sent w) new in
    let run := get_issues_loop server fuel self limit all_issues page w in
    sent run.2 = sent w ++ new
    ∧ ((run.1 = Ret (all_issues ++ concat (page_issues <$> answers))
        ∧ stdout run.2 = stdout w
        ∧ Forall is_json answers)
       ∨ (∃ answers0 e,
            answers = answers0 ++ [RequestException e]
            ∧ Forall is_json answers0
            ∧ run.1 = Exit 1
            ∧ stdout run.2 = stdout w ++ ["Error fetching issues: " +:+ e])).
Proof.
  revert all_issues page w.
  induction fuel as [|fuel IH]; intros all_issues page w Hfuel.
  { exists 0%nat. rewrite get_issues_loop_done by lia. cbn.
    rewrite !app_nil_r. split; [done|]. left. by repeat split. }
  rewrite get_issues_loop_unfold.
  destruct (Z.ltb_spec (len all_issues) limit) as [Hlt|Hge]; cbn zeta.
  2:{ exists 0%nat. cbn. rewrite !app_nil_r. split; [done|]. left. by repeat split. }
  destruct (server (sent w) (search_request self page)) as [e|data] eqn:Hanswer.
  { exists 1%nat. cbn. rewrite Hanswer. split; [done|]. right.
    exists [], e. by repeat split. }
  destruct (default [] (issues_field data)) as [|x l] eqn:Hissues.
  { exists 1%nat. cbn. rewrite Hanswer. cbn. rewrite Hissues, !app_nil_r.
    split; [done|]. left. split; [done|]. split; [done|]. by repeat constructor. }
  destruct (_ <=? _) eqn:Htotal.
  { exists 1%nat. cbn. rewrite Hanswer. cbn. rewrite Hissues, !app_nil_r.
    split; [done|]. left. split; [done|]. split; [done|]. by repeat constructor. }
  destruct (IH (all_issues ++ x :: l) (page + 1)
              (World (stdout w) (sent w ++ [search_request self page])))
    as (n & Hsent & Hrun).
  { unfold len in *. rewrite length_app. cbn [length]. lia. }
  cbn [stdout sent] in Hsent, Hrun. cbn zeta in Hsent, Hrun.
  exists (S n). cbn zeta. cbn [requests_from replay]. rewrite Hanswer.
  split; [by rewrite Hsent, <- app_assoc|].
  destruct Hrun as [(Hret & Hout & Hjson)|(answers0 & e & Hanswers & Hjson & Hexit & Hout)].
  - left. split; [|split; [done|by constructor]].
    rewrite Hret. cbn. by rewrite Hissues, <- app_assoc.
  - right. exists (Json data :: answers0), e. rewrite Hanswers.
    split; [done|]. split; [by constructor|]. by split.
Qed.

End Fetch.

(** ** [get_issues] *)

Section GetIssues.

Context (server : list request → request → response).

(** The slice [l[:n]] keeps the first [n] entries, and none when [n] is
    negative and [l] is empty. *)
Lemma slice_to_take {A} (l : list A) (n : Z) :
  0 ≤ n ∨ l = [] → slice_to l n = take (Z.to_nat n) l.
Proof.
  unfold slice_to. intros [Hn| ->].
  - by rewrite (proj2 (Z.leb_le 0 n) Hn).
  - destruct (0 <=? n); by rewrite !take_nil.
Qed.

(** [get_issues] always ends: it returns the accumulated issues cut at
    [limit], or exits with 1 after a failed request. *)
Lemma get_issues_spec self limit w :
  ∃ n : nat,
    let new := requests_from self 1 n in
    let answers := replay server (sent w) new in
    let accumulated := concat (page_issues <$> answers) in
    let run := get_issues server self limit w in
    sent run.2 = sent w ++ new
    ∧ ((run.1 = Ret (slice_to accumulated limit)
        ∧ (limit < 0 → accumulated = [])
        ∧ stdout run.2 = stdout w
        ∧ Forall is_json answers)
       ∨ (∃ answers0 e,
            answers = answers0 ++ [RequestException e]
            ∧ Forall is_json answers0
            ∧ run.1 = Exit 1
            ∧ stdout run.2 = stdout w ++ ["Error fetching issues: " +:+ e])).
Proof.
  destruct (Z.lt_ge_cases limit 0) as [Hneg|Hpos].
  { exists 0%nat. unfold get_issues, mbind, prog_bind.
    rewrite get_issues_loop_done by (unfold len; cbn; lia). cbn.
    rewrite app_nil_r. split; [done|]. left. by repeat split. }
  destruct (get_issues_loop_spec server (Z.to_nat limit) self limit [] 1 w)
    as (n & Hsent & Hrun).
  { unfold len. cbn. lia. }
  exists n. cbn zeta in *. unfold get_issues, mbind, prog_bind.
  destruct (get_issues_loop server (Z.to_nat limit) self limit [] 1 w)
    as [o w'] eqn:Hloop.
  cbn [fst snd] in *.
  destruct Hrun as [(-> & Hout & Hjson)|(answers0 & e & Hanswers & Hjson & -> & Hout)].
  - cbn [fst snd app]. split; [done|]. left. split; [done|].
    split; [lia|]. by split.
  - cbn [fst snd]. split; [done|]. right. by exists answers0, e.
Qed.

End GetIssues.

(** ** Pagination against a paged service *)

Section Paged.

Context (db : list issue) (self : SonarQubeClient).

Lemma paged_service_answer history (k : nat) :
  paged_service db history (search_request self (Z.of_nat k + 1))
  = Json {| issues_field := Some (take 100 (drop (100 * k) db));
            total_field := Some (len db) |}.
Proof.
  unfold paged_service, page_size. cbn [ps p search_request].
  replace (Z.to_nat page_size) with 100%nat by reflexivity.
  replace (Z.to_nat ((Z.of_nat k + 1 - 1) * page_size)) with (100 * k)%nat
    by (unfold page_size; lia).
  done.
Qed.

(** After [k] full pages the loop asks for [n] more, one request each: it
    stops at the first page count that reaches the limit or, once a page has
    been asked for, the number of issues the service holds. *)
Lemma paged_loop limit fuel (k : nat) w :
  (Z.to_nat (limit - 100 * Z.of_nat k) ≤ fuel)%nat →
  k = 0%nat ∨ (100 * k < length db)%nat →
  ∃ n : nat,
    get_issues_loop (paged_service db) fuel self limit
      (take (100 * k) db) (Z.of_nat k + 1) w
    = (Ret (take (100 * (k + n)) db),
       World (stdout w) (sent w ++ requests_from self (Z.of_nat k + 1) n))
    ∧ (limit ≤ 100 * Z.of_nat (k + n)
       ∨ (0 < k + n)%nat ∧ (length db ≤ 100 * (k + n))%nat)
    ∧ (∀ j : nat, (k ≤ j < k + n)%nat →
         100 * Z.of_nat j < limit ∧ (j = 0%nat ∨ (100 * j < length db)%nat)).
Proof.
  revert k w. induction fuel as [|fuel IH]; intros k w Hfuel Hk.
  all: assert (len (take (100 * k) db) = 100 * Z.of_nat k) as Hlen
    by (unfold len; rewrite length_take; lia).
  { exists 0%nat. rewrite get_issues_loop_done by lia.
    rewrite Nat.add_0_r. cbn [requests_from]. rewrite app_nil_r.
    split; [by destruct w|]. split; [lia|]. intros j Hj. lia. }
  rewrite get_issues_loop_unfold, Hlen.
  destruct (Z.ltb_spec (100 * Z.of_nat k) limit) as [Hlt|Hge]; cbn zeta.
  2:{ exists 0%nat. rewrite Nat.add_0_r. cbn [requests_from].
      rewrite app_nil_r. split; [by destruct w|]. split; [lia|]. intros j Hj. lia. }
  rewrite paged_service_answer. cbn [issues_field total_field default from_option id].
  destruct (take 100 (drop (100 * k) db)) as [|x l] eqn:Hpage.
  { (* an empty page: the service holds nothing *)
    assert (length (take 100 (drop (100 * k) db)) = 0%nat) as Hnil
      by (by rewrite Hpage).
    rewrite length_take, length_drop in Hnil.
    assert (k = 0%nat ∧ db = []) as [-> ->].
    { destruct Hk as [->|Hk]; [|lia]. split; [done|].
      apply length_zero_iff_nil. lia. }
    exists 1%nat. cbn [requests_from]. rewrite !take_nil.
    split; [done|]. split; [right; cbn; lia|]. intros j Hj. lia. }
  rewrite <- Hpage, take_take_drop.
  assert (len (take (100 * k + 100) db)
          = Z.of_nat (Nat.min (100 * k + 100) (length db))) as ->
    by (unfold len; by rewrite length_take).
  replace (100 * k + 100)%nat with (100 * (k + 1))%nat by lia.
  destruct (Z.leb_spec (len db) (Z.of_nat (Nat.min (100 * (k + 1)) (length db))))
    as [Hall|Hmore]; unfold len in *.
  { exists 1%nat. cbn [requests_from]. split; [done|].
    split; [right; lia|]. intros j Hj. assert (j = k) as -> by lia. lia. }
  destruct (IH (k + 1)%nat
              (World (stdout w)
                 (sent w ++ [search_request self (Z.of_nat k + 1)])))
    as (n & Hrun & Hstop & Hmin); [lia..|].
  exists (S n). cbn [stdout sent] in Hrun. cbn [requests_from].
  replace (Z.of_nat (k + 1)%nat + 1) with (Z.of_nat k + 1 + 1) in Hrun by lia.
  rewrite Hrun, <- app_assoc. cbn [app].
  replace (k + 1 + n)%nat with (k + S n)%nat in * by lia.
  split; [done|]. split; [done|].
  intros j Hj. destruct (decide (j = k)) as [->|Hne]; [lia|].
  apply Hmin. lia.
Qed.

(** [get_issues] against a paged service, for a positive limit. *)
Lemma paged_get_issues limit w :
  0 < limit →
  ∃ n : nat,
    get_issues (paged_service db) self limit w
    = (Ret (take (Z.to_nat limit) db),
       World (stdout w) (sent w ++ requests_from self 1 n))
    ∧ (limit ≤ 100 * Z.of_nat n ∨ (0 < n)%nat ∧ (length db ≤ 100 * n)%nat)
    ∧ (∀ j : nat, (j < n)%nat →
         100 * Z.of_nat j < limit ∧ (j = 0%nat ∨ (100 * j < length db)%nat)).
Proof.
  intros Hlimit.
  destruct (paged_loop limit (Z.to_nat limit) 0 w) as (n & Hrun & Hstop & Hmin);
    [lia|by left|].
  change (take (100 * 0) db) with (@nil issue) in Hrun.
  rewrite Nat.add_0_l in Hrun, Hstop.
  exists n. unfold get_issues, mbind, prog_bind.
  change (Z.of_nat 0 + 1) with 1 in Hrun. rewrite Hrun.
  split; [|split; [done|intros j Hj; apply Hmin; lia]].
  unfold mret, prog_ret. f_equal. f_equal.
  rewrite slice_to_take by lia. rewrite take_take.
  destruct Hstop as [Hstop|[_ Hstop]].
  - f_equal. lia.
  - destruct (decide (Z.to_nat limit ≤ 100 * n)%nat).
    + f_equal. lia.
    + by rewrite !take_ge by lia.
Qed.

End Paged.

(** C1. Pagination ends at the total the service reports: against a service
    that holds 250 issues, serves them in pages of 100 and reports
    [total = 250], [get_issues] with [limit = 500] returns exactly these 250
    issues and sends exactly 3 page requests (pages 1, 2 and 3), printing
    nothing. *)
Theorem pagination_stops_at_total (db : list issue) self w :
  length db = 250%nat →
  ∃ l w',
    get_issues (paged_service db) self 500 w = (Ret l, w')
    ∧ l = db
    ∧ length l = 250%nat
    ∧ stdout w' = stdout w
    ∧ sent w' = sent w ++ [search_request self 1; search_request self 2;
                           search_request self 3]
    ∧ length (sent w') = (length (sent w) + 3)%nat.
Proof.
  intros Hdb.
  destruct (paged_get_issues db self 500 w) as (n & Hrun & Hstop & Hmin); [lia|].
  assert (n = 3%nat) as ->.
  { destruct (decide (n ≤ 3)%nat); [lia|].
    specialize (Hmin 3%nat ltac:(lia)). lia. }
  eexists _, _. split; [exact Hrun|]. cbn [stdout sent requests_from].
  rewrite take_ge by lia.
  repeat split; [done|]. rewrite length_app. reflexivity.
Qed.

Lemma pagination_stops_at_total_witness :
  ∃ l w',
    get_issues (paged_service (replicate 250 sample_issue)) sample_client 500
      (World [] []) = (Ret l, w')
    ∧ length l = 250%nat
    ∧ length (sent w') = 3%nat.
Proof.
  destruct (pagination_stops_at_total (replicate 250 sample_issue)
              sample_client (World [] []) eq_refl)
    as (l & w' & Hrun & _ & Hlen & _ & _ & Hsent).
  exists l, w'. split; [exact Hrun|]. split; [exact Hlen|exact Hsent].
Defined.

(** The count above is that of the issues the service holds. A service that
    reports [total = 250] and still fills its third page has all its 300
    issues returned: the loop stops once the total is reached or passed, and
    cuts the list at [limit] only. *)
Lemma pagination_full_pages (page : list issue) self w :
  length page = 100%nat →
  get_issues (constant_service page 250) self 500 w
  = (Ret (page ++ page ++ page),
     World (stdout w)
       (sent w ++ [search_request self 1; search_request self 2;
                   search_request self 3])).
Proof.
  intros Hpage. destruct page as [|x l]; [done|].
  assert (∀ a : list issue, len (a ++ x :: l) = len a + 100) as Hlen
    by (intros a; unfold len; rewrite length_app, Hpage; lia).
  unfold get_issues, mbind, prog_bind.
  change (Z.to_nat 500) with (S (S (S (Z.to_nat 497)))).
  rewrite get_issues_loop_unfold. change (len [] <? 500) with true.
  cbn zeta. unfold constant_service at 1.
  cbn [issues_field total_field default from_option id].
  rewrite Hlen. change (250 <=? len [] + 100) with false.
  rewrite get_issues_loop_unfold, Hlen.
  change (len [] + 100 <? 500) with true.
  cbn zeta. unfold constant_service at 1.
  cbn [issues_field total_field default from_option id stdout sent].
  rewrite !Hlen. change (250 <=? len [] + 100 + 100) with false.
  rewrite get_issues_loop_unfold, !Hlen.
  change (len [] + 100 + 100 <? 500) with true.
  cbn zeta. unfold constant_service at 1.
  cbn [issues_field total_field default from_option id stdout sent].
  rewrite !Hlen. change (250 <=? len [] + 100 + 100 + 100) with true.
  unfold mret, prog_ret. rewrite slice_to_take by lia.
  rewrite take_ge by (rewrite !length_app, Hpage; cbn; lia).
  cbn [app]. by rewrite <- !app_assoc.
Qed.

(** C4. Whatever the service answers and whatever the limit [L],
    [get_issues] either exits after a failed request or returns the issues
    accumulated from the answers to its requests, cut to their first [L]: at
    most [L] entries (none when [L] is negative). In particular, against a
    service that holds 1000 issues, [get_issues] with [limit = 120] returns
    exactly 120 issues, the first 120. *)
Theorem get_issues_truncates_to_limit :
  (∀ server self limit w, ∃ new : list request,
      let accumulated := concat (page_issues <$> replay server (sent w) new) in
      let run := get_issues server self limit w in
      sent run.2 = sent w ++ new
      ∧ (run.1 = Exit 1
         ∨ run.1 = Ret (slice_to accumulated limit)
           ∧ slice_to accumulated limit = take (Z.to_nat limit) accumulated
           ∧ len (slice_to accumulated limit) ≤ Z.max 0 limit))
  ∧ (∀ db self w, length db = 1000%nat →
      ∃ l w',
        get_issues (paged_service db) self 120 w = (Ret l, w')
        ∧ l = take 120 db
        ∧ length l = 120%nat).
Proof.
  split.
  - intros server self limit w.
    destruct (get_issues_spec server self limit w) as (n & Hsent & Hrun).
    exists (requests_from self 1 n). cbn zeta in *. split; [done|].
    destruct Hrun as [(Hret & Hneg & _)|(? & ? & _ & _ & Hexit & _)]; [|by left].
    right. split; [done|].
    assert (slice_to (concat (page_issues <$>
              replay server (sent w) (requests_from self 1 n))) limit
            = take (Z.to_nat limit) (concat (page_issues <$>
                replay server (sent w) (requests_from self 1 n)))) as Hslice.
    { apply slice_to_take. destruct (Z.lt_ge_cases limit 0); [right|left]; auto. }
    split; [done|]. rewrite Hslice. unfold len. rewrite length_take. lia.
  - intros db self w Hdb.
    destruct (paged_get_issues db self 120 w) as (n & Hrun & _); [lia|].
    eexists _, _. split; [exact Hrun|]. split; [done|].
    rewrite length_take. change (Z.to_nat 120) with 120%nat. lia.
Qed.

Lemma get_issues_truncates_to_limit_witness :
  (∃ l w',
      get_issues (paged_service (replicate 1000 sample_issue)) sample_client 120
        (World [] []) = (Ret l, w')
      ∧ length l = 120%nat)
  ∧ (∃ new : list request,
      let server := constant_service [sample_issue] 7 in
      let accumulated := concat (page_issues <$> replay server [] new) in
      let run := get_issues server sample_client 3 (World [] []) in
      sent run.2 = new
      ∧ (run.1 = Exit 1
         ∨ run.1 = Ret (slice_to accumulated 3)
           ∧ slice_to accumulated 3 = take 3 accumulated
           ∧ len (slice_to accumulated 3) ≤ 3)).
Proof.
  destruct get_issues_truncates_to_limit as [Hany Hpaged].
  split.
  - destruct (Hpaged (replicate 1000 sample_issue) sample_client (World [] [])
                eq_refl) as (l & w' & Hrun & _ & Hlen).
    exists l, w'. split; [exact Hrun|exact Hlen].
  - exact (Hany (constant_service [sample_issue] 7) sample_client 3
             (World [] [])).
Defined.

(** ** The program as a whole *)

Lemma offline_ret {A} (a : A) : offline (mret a).
Proof. done. Qed.

Lemma offline_lift {A} (o : outcome A) : offline (lift o).
Proof. done. Qed.

Lemma offline_print line : offline (print line).
Proof. done. Qed.

Lemma offline_bind {A B} (m : prog A) (k : A → prog B) :
  offline m → (∀ a, offline (k a)) → offline (m ≫= k).
Proof.
  intros Hm Hk w. unfold mbind, prog_bind. specialize (Hm w).
  destruct (m w) as [[a|c|e|] w']; cbn [snd] in *; [|done..].
  by rewrite Hk.
Qed.

Lemma offline_for_each {A} (body : A → prog unit) (l : list A) :
  (∀ x, offline (body x)) → offline (for_each body l).
Proof.
  intros Hbody. induction l as [|x l IH]; [done|].
  cbn [for_each]. apply offline_bind; [apply Hbody|done].
Qed.

Create HintDb offline.
#[local] Hint Resolve offline_ret offline_lift offline_print : offline.

Section Main.

Context (server : list request → request → response).
Context (tabulate : list (list value) → list string → string → string).
Context (float_repr : float → string).

Lemma offline_report issues : offline (report tabulate float_repr issues).
Proof.
  unfold report.
  repeat first
    [ apply offline_bind; [auto with offline|intros ?]
    | apply offline_for_each; intros ?
    | match goal with |- offline (if ?b then _ else _) => destruct b end
    | solve [auto with offline] ].
Qed.

Lemma main_with_token environ w :
  falsy (environ !! "SONARQ_TOKEN") = false →
  main server tabulate float_repr environ w
  = match get_issues server (configured_client environ) 500 (at_fetch environ w) with
    | (Ret [], w') => (Ret tt, World (stdout w' ++ ["No issues found."]) (sent w'))
    | (Ret issues, w') => report tabulate float_repr issues w'
    | (Exit c, w') => (Exit c, w')
    | (Raise e, w') => (Raise e, w')
    | (OutOfFuel, w') => (OutOfFuel, w')
    end.
Proof.
  intros Htoken. unfold main. rewrite Htoken.
  unfold mbind at 1 2 3 4 5, prog_bind at 1 2 3 4 5, print at 1 2 3 4.
  cbn [stdout sent]. rewrite <- !app_assoc. cbn [app].
  fold (configured_client environ). unfold at_fetch, banner.
  destruct (get_issues _ _ _ _) as [[[|x l]|c|e|] w']; done.
Qed.

Lemma main_without_token environ w :
  falsy (environ !! "SONARQ_TOKEN") = true →
  main server tabulate float_repr environ w
  = (Exit 1,
     World (stdout w ++ ["Error: SONARQ_TOKEN environment variable not set"])
           (sent w)).
Proof. intros Htoken. unfold main. by rewrite Htoken. Qed.

(** C6. With [SONARQ_TOKEN] unset or empty, [main] prints its diagnostic
    and exits with status 1, and the requests sent are those sent before:
    it issues no HTTP request. *)
Theorem missing_token_exits_before_any_request environ w :
  environ !! "SONARQ_TOKEN" = None ∨ environ !! "SONARQ_TOKEN" = Some "" →
  let run := main server tabulate float_repr environ w in
  run = (Exit 1,
         World (stdout w ++ ["Error: SONARQ_TOKEN environment variable not set"])
               (sent w))
  ∧ exit_status run.1 = Some 1
  ∧ sent run.2 = sent w.
Proof.
  intros Htoken. cbn zeta.
  rewrite main_without_token; [done|]. by destruct Htoken as [-> | ->].
Qed.

(** C7. When [get_issues] returns the empty list, [main] prints the notice
    "No issues found." once, right after the four lines it prints before
    fetching, and returns: exit status 0. Nothing else is printed (no table,
    no summary), and the scoring, sorting and table code is not run. *)
Theorem no_issues_notice environ w w' :
  falsy (environ !! "SONARQ_TOKEN") = false →
  get_issues server (configured_client environ) 500 (at_fetch environ w)
    = (Ret [], w') →
  let run := main server tabulate float_repr environ w in
  run = (Ret tt, World (stdout w' ++ ["No issues found."]) (sent w'))
  ∧ stdout run.2 = stdout w ++ banner environ ++ ["No issues found."]
  ∧ exit_status run.1 = Some 0.
Proof.
  intros Htoken Hfetch. cbn zeta. rewrite main_with_token, Hfetch by done.
  split; [done|]. split; [|done]. cbn [snd stdout].
  destruct (get_issues_spec server (configured_client environ) 500
              (at_fetch environ w)) as (n & _ & Hrun).
  cbn zeta in Hrun. rewrite Hfetch in Hrun. cbn [fst snd] in Hrun.
  destruct Hrun as [(_ & _ & -> & _)|(? & ? & _ & _ & ? & _)]; [|done].
  unfold at_fetch. cbn [stdout]. by rewrite <- app_assoc.
Qed.

(** C5. If any request [main] sends is answered by a failure (a timeout, a
    connection error or a non-success status, with the text [e]), then
    [main] exits with status 1, the last line it has printed is the
    diagnostic with [e] in it, and the failed request is the last one sent:
    it is not tried again, and nothing is asked after it. *)
Theorem request_failure_is_fatal environ w (i : nat) r e :
  let run := main server tabulate float_repr environ w in
  (length (sent w) ≤ i)%nat →
  sent run.2 !! i = Some r →
  server (take i (sent run.2)) r = RequestException e →
  run.1 = Exit 1
  ∧ exit_status run.1 = Some 1
  ∧ last (stdout run.2) = Some ("Error fetching issues: " +:+ e)
  ∧ length (sent run.2) = S i.
Proof.
  cbn zeta. intros Hnew Hsent Hfail.
  destruct (falsy (environ !! "SONARQ_TOKEN")) eqn:Htoken.
  { exfalso. rewrite main_without_token in Hsent by done.
    apply lookup_lt_Some in Hsent. cbn in Hsent. lia. }
  rewrite main_with_token in * by done.
  destruct (get_issues_spec server (configured_client environ) 500
              (at_fetch environ w)) as (n & Hlog & Hrun).
  cbn zeta in Hlog, Hrun. cbn [sent at_fetch] in Hlog, Hrun.
  set (new := requests_from (configured_client environ) 1 n) in *.
  assert (length new = n) as Hnew_len by apply length_requests_from.
  destruct (get_issues _ _ _ _) as [o w1]. cbn [fst snd] in Hlog, Hrun.
  assert (∀ w2 : world, sent w2 = sent w1 →
            sent w2 !! i = Some r →
            server (take i (sent w2)) r = RequestException e →
            replay server (sent w) new !! (i - length (sent w))%nat
            = Some (RequestException e)) as Hanswer.
  { intros w2 -> Hi Hr. rewrite Hlog in Hi, Hr.
    rewrite lookup_app_r in Hi by done.
    rewrite replay_lookup, Hi. cbn. f_equal. rewrite <- Hr. f_equal.
    rewrite take_app. by rewrite (take_ge (sent w)) by done. }
  destruct Hrun as [(-> & _ & _ & Hjson)|(answers0 & e' & Hanswers & Hjson & -> & Hout)].
  - exfalso.
    assert (∃ w2, sent w2 = sent w1 ∧ sent w2 !! i = Some r
                  ∧ server (take i (sent w2)) r = RequestException e)
      as (w2 & Hw2 & Hi & Hr).
    { destruct (slice_to _ _) as [|x l].
      - cbn in Hsent, Hfail. by exists w1.
      - rewrite (offline_report _ w1) in Hsent, Hfail.
        by exists w1. }
    specialize (Hanswer w2 Hw2 Hi Hr).
    rewrite Forall_forall in Hjson.
    by apply (Hjson (RequestException e)), list_elem_of_lookup; eexists.
  - cbn [fst snd] in *. specialize (Hanswer w1 eq_refl Hsent Hfail).
    rewrite Hanswers in Hanswer.
    assert (length (replay server (sent w) new) = n) as Hn
      by (by rewrite length_replay).
    rewrite Hanswers, length_app in Hn. cbn [length] in Hn.
    destruct (decide (i - length (sent w) < length answers0)%nat) as [Hin|Hlast].
    { exfalso. rewrite lookup_app_l in Hanswer by done.
      rewrite Forall_forall in Hjson.
      by apply (Hjson (RequestException e)), list_elem_of_lookup; eexists. }
    apply lookup_lt_Some in Hsent as Hlt.
    rewrite Hlog, length_app, Hnew_len in Hlt.
    rewrite lookup_app_r in Hanswer by lia.
    replace (i - length (sent w) - length answers0)%nat with 0%nat in Hanswer
      by lia.
    injection Hanswer as ->.
    split; [done|]. split; [done|]. split.
    + rewrite Hout. by rewrite last_snoc.
    + rewrite Hlog, length_app, Hnew_len. lia.
Qed.

End Main.

Lemma missing_token_exits_before_any_request_witness :
  (∅ : gmap string string) !! "SONARQ_TOKEN" = None
  ∧ main (constant_service [sample_issue] 1) no_table no_repr ∅ (World [] [])
    = (Exit 1, World ["Error: SONARQ_TOKEN environment variable not set"] []).
Proof.
  split; [reflexivity|].
  apply (missing_token_exits_before_any_request
           (constant_service [sample_issue] 1) no_table no_repr ∅ (World [] [])).
  left. reflexivity.
Defined.

Lemma no_issues_notice_witness :
  (get_issues (constant_service [] 0) (configured_client sample_environ) 500
     (at_fetch sample_environ (World [] []))).1 = Ret []
  ∧ (main (constant_service [] 0) no_table no_repr sample_environ
       (World [] [])).1 = Ret tt
  ∧ stdout (main (constant_service [] 0) no_table no_repr sample_environ
              (World [] [])).2
    = ["Connecting to SonarQube at https://sonarcloud.io";
       "Project key: FreeSideNomad_messaging-platform"; "";
       "Fetching issues..."; "No issues found."].
Proof.
  split; [vm_compute; reflexivity|].
  edestruct (no_issues_notice (constant_service [] 0) no_table no_repr
               sample_environ (World [] [])) as (Hrun & Hout & _).
  - reflexivity.
  - vm_compute. reflexivity.
  - split; [by rewrite Hrun|exact Hout].
Defined.

Lemma request_failure_is_fatal_witness :
  failing_service "Read timed out." []
    (search_request (configured_client sample_environ) 1)
  = RequestException "Read timed out."
  ∧ main (failing_service "Read timed out.") no_table no_repr sample_environ
      (World [] [])
    = (Exit 1,
       World ["Connecting to SonarQube at https://sonarcloud.io";
              "Project key: FreeSideNomad_messaging-platform"; "";
              "Fetching issues..."; "Error fetching issues: Read timed out."]
             [search_request (configured_client sample_environ) 1]).
Proof.
  split; [reflexivity|].
  pose proof (request_failure_is_fatal (failing_service "Read timed out.")
                no_table no_repr sample_environ (World [] []) 0
                (search_request (configured_client sample_environ) 1)
                "Read timed out.") as Hfatal.
  cbn zeta in Hfatal.
  destruct Hfatal as (Hexit & _ & _ & _).
  - apply le_n.
  - vm_compute. reflexivity.
  - reflexivity.
  - vm_compute. reflexivity.
Defined.

(** ** Scoring *)

Lemma traverse_Ret {A B} (f : A → outcome B) l l' :
  traverse f l = Ret l' ↔ Forall2 (λ x y, f x = Ret y) l l'.
Proof.
  revert l'. induction l as [|x l IH]; intros l'; cbn [traverse].
  - split; [intros [= <-]; constructor|by inversion 1].
  - unfold mbind, outcome_bind, obind. split.
    + destruct (f x) as [y| | |] eqn:Hx; [|done..].
      destruct (traverse f l) as [ys| | |]; [|done..].
      intros [= <-]. constructor; [done|]. by apply IH.
    + inversion 1 as [|? y ? ys Hx Hl]; subst. rewrite Hx.
      apply IH in Hl. by rewrite Hl.
Qed.

(** A traversal in which [e] is the only exception raises [e] as soon as
    one element does. *)
Lemma traverse_Raise {A B} (f : A → outcome B) (e : exn) l :
  Forall (λ x, (∃ y, f x = Ret y) ∨ f x = Raise e) l →
  Exists (λ x, f x = Raise e) l →
  traverse f l = Raise e.
Proof.
  induction 1 as [|x l Hx Hl IH]; [by inversion 1|].
  intros Hex. cbn [traverse]. unfold mbind, outcome_bind, obind.
  destruct Hx as [[y Hx]| ->]; [|done]. rewrite Hx.
  inversion Hex as [? ? Hx'|? ? Hl']; subst; [congruence|].
  by rewrite IH.
Qed.

Lemma score_issue_Ret x x' :
  score_issue x = Ret x' ↔
  ∃ sev ty, x !! "severity" = Some sev ∧ x !! "type" = Some ty
            ∧ x' = <["priority_score" := VNum (Float (get_priority_score sev ty))]> x.
Proof.
  unfold score_issue, getitem, mbind, outcome_bind, obind.
  destruct (x !! "severity") as [sev|]; [|split; [done|by intros (? & ? & ? & _)]].
  destruct (x !! "type") as [ty|]; [|split; [done|by intros (? & ? & _ & ? & _)]].
  split; [intros [= <-]; by exists sev, ty|].
  by intros (? & ? & [= <-] & [= <-] & ->).
Qed.

Section Sorting.

Context {A : Type}.
Implicit Types l : list ((num * Z) * A).

Lemma insert_sorted_perm k (x : A) l :
  insert_sorted k x l ≡ₚ (k, x) :: l.
Proof.
  induction l as [|[k' y] l IH]; cbn [insert_sorted]; [done|].
  destruct (key_ltb k' k); [|done]. rewrite IH. apply Permutation_swap.
Qed.

Lemma sort_keyed_perm l : sort_keyed l ≡ₚ l.
Proof.
  induction l as [|[k x] l IH]; cbn [sort_keyed]; [done|].
  by rewrite insert_sorted_perm, IH.
Qed.

(** On a set [K] of keys where [<] is asymmetric and "not greater" is
    transitive, insertion yields a sorted list. *)
Context (K : num * Z → Prop).
Hypothesis key_ltb_asym :
  ∀ a b, K a → K b → key_ltb a b = true → key_ltb b a = false.
Hypothesis key_le_trans :
  ∀ a b c, K a → K b → K c →
    key_ltb b a = false → key_ltb c b = false → key_ltb c a = false.

Lemma insert_sorted_sorted k (x : A) l :
  K k → Forall (λ a, K a.1) l →
  StronglySorted key_le l → StronglySorted key_le (insert_sorted k x l).
Proof using key_ltb_asym key_le_trans.
  intros Hk. induction l as [|[k' y] l IH]; intros HK Hsorted; cbn [insert_sorted].
  { by repeat constructor. }
  apply Forall_cons in HK as [Hk' HK]. cbn [fst] in Hk'.
  apply StronglySorted_inv in Hsorted as [Hsorted Hall].
  destruct (key_ltb k' k) eqn:Hlt.
  - constructor; [by apply IH|].
    rewrite insert_sorted_perm. constructor; [|done].
    unfold key_le. cbn [fst]. by apply key_ltb_asym.
  - constructor; [by constructor|]. constructor; [done|].
    rewrite Forall_forall in Hall, HK. apply Forall_forall. intros [k'' z] Hz.
    unfold key_le in *. cbn [fst] in *.
    apply (key_le_trans k k' k''); [done..|by apply (HK (k'', z))|done|].
    by apply (Hall (k'', z)).
Qed.

Lemma sort_keyed_sorted l :
  Forall (λ a, K a.1) l → StronglySorted key_le (sort_keyed l).
Proof using key_ltb_asym key_le_trans.
  induction l as [|[k x] l IH]; intros HK; cbn [sort_keyed]; [constructor|].
  apply Forall_cons in HK as [Hk HK]. apply insert_sorted_sorted; [done| |by apply IH].
  by rewrite sort_keyed_perm.
Qed.

End Sorting.

Lemma StronglySorted_lookup {A} (R : A → A → Prop) (l : list A) i j a b :
  StronglySorted R l → (i < j)%nat → l !! i = Some a → l !! j = Some b → R a b.
Proof.
  intros Hsorted. revert i j. induction Hsorted as [|x l Hsorted IH Hall];
    intros i j Hij Hi Hj; [done|].
  destruct j as [|j]; [lia|]. cbn in Hj. destruct i as [|i]; cbn in Hi.
  - injection Hi as ->. rewrite Forall_forall in Hall.
    by apply Hall, list_elem_of_lookup; exists j.
  - apply (IH i j); [lia|done..].
Qed.

Lemma sort_issues_Ret scored keys :
  traverse sort_key scored = Ret keys →
  sort_issues scored = Ret (sort_keyed (zip keys scored)).*2
  ∧ scored ≡ₚ (sort_keyed (zip keys scored)).*2.
Proof.
  intros Hkeys. unfold sort_issues. rewrite Hkeys. split; [done|].
  rewrite sort_keyed_perm, snd_zip; [done|].
  apply traverse_Ret, Forall2_length in Hkeys. lia.
Qed.

(** C9. The scoring step adds to each fetched issue the field
    [priority_score], holding the score of its severity and type, and
    leaves every other field as received; the sort that follows reorders
    the scored issues and changes none of them (and the table is built by
    reading them). *)
Theorem scoring_adds_only_priority_score issues scored :
  score_issues issues = Ret scored →
  Forall2 (λ x x' : issue,
      (∃ sev ty, x !! "severity" = Some sev ∧ x !! "type" = Some ty
                 ∧ x' !! "priority_score"
                   = Some (VNum (Float (get_priority_score sev ty))))
      ∧ dom x' = dom x ∪ {["priority_score"]}
      ∧ ∀ field, field ≠ "priority_score" → x' !! field = x !! field)
    issues scored
  ∧ ∀ ranked, sort_issues scored = Ret ranked → scored ≡ₚ ranked.
Proof.
  intros Hscored. split.
  - apply traverse_Ret in Hscored.
    eapply Forall2_impl; [exact Hscored|]. cbn beta.
    intros x x' (sev & ty & Hsev & Hty & ->)%score_issue_Ret.
    split; [|split].
    + exists sev, ty. by rewrite lookup_insert_eq.
    + rewrite dom_insert_L. apply (comm_L (∪)).
    + intros field Hfield. by rewrite lookup_insert_ne.
  - intros ranked Hranked. unfold sort_issues in Hranked.
    destruct (traverse sort_key scored) as [keys| | |] eqn:Hkeys; [|done..].
    destruct (sort_issues_Ret _ _ Hkeys) as [Hsort Hperm].
    unfold sort_issues in Hsort. rewrite Hkeys in Hsort. congruence.
Qed.

Lemma score_issue_with_score (x : issue) sev ty score :
  x !! "severity" = Some sev → x !! "type" = Some ty →
  get_priority_score sev ty = score →
  score_issue x = Ret (with_score score x).
Proof. intros Hsev Hty <-. apply score_issue_Ret. by exists sev, ty. Qed.

Lemma score_sample_issue :
  score_issue sample_issue = Ret (with_score 3 sample_issue).
Proof.
  apply (score_issue_with_score _ (VStr "MAJOR") (VStr "CODE_SMELL"));
    vm_compute; reflexivity.
Defined.

Lemma score_odd_issue : score_issue odd_issue = Ret (with_score 0 odd_issue).
Proof.
  apply (score_issue_with_score _ (VStr "UNRANKED") (VStr "CODE_SMELL"));
    vm_compute; reflexivity.
Defined.

Lemma scoring_adds_only_priority_score_witness :
  score_issues [sample_issue] = Ret [with_score 3 sample_issue]
  ∧ Forall2 (λ x x' : issue, dom x' = dom x ∪ {["priority_score"]})
      [sample_issue] [with_score 3 sample_issue].
Proof.
  assert (score_issues [sample_issue] = Ret [with_score 3 sample_issue])
    as Hscored.
  { apply traverse_Ret. constructor; [exact score_sample_issue|constructor]. }
  split; [exact Hscored|].
  eapply Forall2_impl.
  - exact (proj1 (scoring_adds_only_priority_score _ _ Hscored)).
  - cbn beta. intros x x' (_ & Hdom & _). exact Hdom.
Defined.

(** ** Ranking *)

Lemma index_cases l v : (∃ i, index l v = Ret i) ∨ index l v = Raise ValueError.
Proof.
  induction l as [|s l IH]; cbn [index]; [by right|].
  destruct (eqb (VStr s) v); [left; by eexists|].
  destruct IH as [[i ->]| ->]; [left; by eexists|by right].
Qed.

Lemma index_unknown v :
  (∀ s, v = VStr s → s ∉ severity_order) →
  index severity_order v = Raise ValueError.
Proof.
  intros Hv. destruct v as [|n|s]; [done..|].
  specialize (Hv s eq_refl). unfold severity_order in *. cbn [index eqb].
  repeat match goal with
    | |- context [String.eqb ?a s] =>
        destruct (String.eqb_spec a s) as [<-|_];
        [exfalso; apply Hv; by_decide|cbn [obind]]
    end.
  done.
Qed.

(** What [index] returns is a position of the list, and the value looked up
    is the string at this position. *)
Lemma index_position l v i :
  index l v = Ret i → ∃ s, v = VStr s ∧ 0 ≤ i ∧ l !! Z.to_nat i = Some s.
Proof.
  revert i. induction l as [|s0 l IH]; intros i; cbn [index]; [done|].
  destruct (eqb (VStr s0) v) eqn:Heq.
  - intros [= <-]. destruct v as [|n|s]; cbn in Heq; [done..|].
    apply String.eqb_eq in Heq as ->. by exists s.
  - destruct (index l v) as [j|c|e|] eqn:Hj; cbn [obind]; [|done..].
    intros [= <-]. destruct (IH j eq_refl) as (s & -> & Hj0 & Hs).
    exists s. split; [done|]. split; [lia|].
    by replace (Z.to_nat (1 + j)) with (S (Z.to_nat j)) by lia.
Qed.

Lemma severity_index_position (x : issue) i :
  severity_index x = Some i →
  ∃ s, x !! "severity" = Some (VStr s)
       ∧ 0 ≤ i ∧ severity_order !! Z.to_nat i = Some s.
Proof.
  unfold severity_index. destruct (x !! "severity") as [v|]; [|done].
  destruct (index severity_order v) as [j|c|e|] eqn:Hj; [|done..].
  intros [= <-]. destruct (index_position _ _ _ Hj) as (s & -> & Hj0 & Hs).
  by exists s.
Qed.

(** The key of a scored issue: its score, negated, and the rank of its
    severity, when the severity has one. *)
Lemma sort_key_scored x x' :
  score_issue x = Ret x' →
  ∃ sev ty,
    x !! "severity" = Some sev ∧ x !! "type" = Some ty
    ∧ x' !! "severity" = Some sev
    ∧ score_of x' = Some (get_priority_score sev ty)
    ∧ sort_key x'
      = obind (index severity_order sev)
          (λ i, Ret (Float (PrimFloat.opp (get_priority_score sev ty)), i)).
Proof.
  intros (sev & ty & Hsev & Hty & ->)%score_issue_Ret. exists sev, ty.
  assert (<["priority_score" := VNum (Float (get_priority_score sev ty))]> x
            !! "severity" = Some sev) as Hsev' by (by rewrite lookup_insert_ne).
  split; [done|]. split; [done|]. split; [done|]. split.
  - unfold score_of. by rewrite lookup_insert_eq.
  - unfold sort_key, getitem. rewrite lookup_insert_eq, Hsev'. done.
Qed.

(** C10. A fetched list with an issue whose severity is none of BLOCKER,
    CRITICAL, MAJOR, MINOR, INFO is scored without complaint, such a
    severity scoring 0 with every type, and then the sort raises
    [ValueError] from the lookup of the severity in the ranking list,
    instead of ordering the list. *)
Theorem unranked_severity_fails_the_sort issues scored (x : issue) v :
  score_issues issues = Ret scored →
  x ∈ issues →
  x !! "severity" = Some v →
  (∀ s, v = VStr s → s ∉ severity_order) →
  (∀ type_, get_priority_score v type_ = 0%float)
  ∧ index severity_order v = Raise ValueError
  ∧ sort_issues scored = Raise ValueError.
Proof.
  intros Hscored Hx Hsev Hv.
  split; [intros type_; by apply get_priority_score_unknown|].
  split; [by apply index_unknown|].
  apply traverse_Ret in Hscored.
  unfold sort_issues. rewrite (traverse_Raise sort_key ValueError); [done|..].
  - apply Forall_forall. intros x' Hx'.
    apply list_elem_of_lookup in Hx' as [i Hx'].
    destruct (Forall2_lookup_r _ _ _ _ _ Hscored Hx') as (x0 & _ & Hscore).
    destruct (sort_key_scored _ _ Hscore) as (sev & ty & _ & _ & _ & _ & ->).
    destruct (index_cases severity_order sev) as [[j ->]| ->]; [left|right]; eauto.
  - apply list_elem_of_lookup in Hx as [i Hx].
    destruct (Forall2_lookup_l _ _ _ _ _ Hscored Hx) as (x' & Hx' & Hscore).
    apply Exists_exists. exists x'. split; [apply list_elem_of_lookup; eauto|].
    destruct (sort_key_scored _ _ Hscore) as (sev & ty & Hsev' & _ & _ & _ & ->).
    assert (sev = v) as -> by congruence.
    by rewrite index_unknown.
Qed.

Lemma unranked_severity_fails_the_sort_witness :
  score_issues [sample_issue; odd_issue]
    = Ret [with_score 3 sample_issue; with_score 0 odd_issue]
  ∧ odd_issue !! "severity" = Some (VStr "UNRANKED")
  ∧ get_priority_score (VStr "UNRANKED") (VStr "CODE_SMELL") = 0%float
  ∧ sort_issues [with_score 3 sample_issue; with_score 0 odd_issue]
    = Raise ValueError.
Proof.
  assert (score_issues [sample_issue; odd_issue]
          = Ret [with_score 3 sample_issue; with_score 0 odd_issue]) as Hscored.
  { apply traverse_Ret.
    constructor; [exact score_sample_issue|].
    constructor; [exact score_odd_issue|constructor]. }
  assert (odd_issue !! "severity" = Some (VStr "UNRANKED")) as Hsev
    by (vm_compute; reflexivity).
  split; [exact Hscored|]. split; [exact Hsev|].
  refine (let H := unranked_severity_fails_the_sort _ _ odd_issue
                     (VStr "UNRANKED") Hscored _ Hsev _ in
          conj (proj1 H _) (proj2 (proj2 H))).
  - apply elem_of_cons. right. apply elem_of_cons. left. reflexivity.
  - intros s [= <-]. by_decide.
Defined.

(** *** The order of the keys, by evaluation over the score classes *)

Lemma forallb2_elem_of {A} (f : A → A → bool) (l : list A) :
  forallb (λ a, forallb (f a) l) l = true →
  ∀ a b, a ∈ l → b ∈ l → f a b = true.
Proof.
  intros Hall a b Ha%list_elem_of_In Hb%list_elem_of_In.
  rewrite forallb_forall in Hall. specialize (Hall a Ha).
  rewrite forallb_forall in Hall. by apply Hall.
Qed.

Lemma class_key_asym a b :
  a ∈ score_classes → b ∈ score_classes →
  key_ltb (key_of_class a) (key_of_class b) = true →
  key_ltb (key_of_class b) (key_of_class a) = false.
Proof.
  intros Ha Hb Hlt.
  pose proof (forallb2_elem_of
    (λ a b, implb (key_ltb (key_of_class a) (key_of_class b))
                  (negb (key_ltb (key_of_class b) (key_of_class a))))
    score_classes) as Hall.
  specialize (Hall ltac:(vm_compute; reflexivity) a b Ha Hb). cbn beta in Hall.
  rewrite Hlt in Hall. by apply negb_true_iff in Hall.
Qed.

Lemma class_key_le_trans a b c :
  a ∈ score_classes → b ∈ score_classes → c ∈ score_classes →
  key_ltb (key_of_class b) (key_of_class a) = false →
  key_ltb (key_of_class c) (key_of_class b) = false →
  key_ltb (key_of_class c) (key_of_class a) = false.
Proof.
  intros Ha Hb Hc Hab Hbc.
  pose proof (forallb2_elem_of
    (λ a b, forallb (λ c,
       implb (negb (key_ltb (key_of_class b) (key_of_class a))
              && negb (key_ltb (key_of_class c) (key_of_class b)))
             (negb (key_ltb (key_of_class c) (key_of_class a)))) score_classes)
    score_classes) as Hall.
  specialize (Hall ltac:(vm_compute; reflexivity) a b Ha Hb). cbn beta in Hall.
  rewrite forallb_forall in Hall.
  specialize (Hall c (proj1 (list_elem_of_In _ _) Hc)).
  rewrite Hab, Hbc in Hall. by apply negb_true_iff in Hall.
Qed.

Lemma class_ranked_before a b :
  a ∈ score_classes → b ∈ score_classes →
  key_ltb (key_of_class b) (key_of_class a) = false →
  ranked_before a b = true.
Proof.
  intros Ha Hb Hle.
  pose proof (forallb2_elem_of
    (λ a b, implb (negb (key_ltb (key_of_class b) (key_of_class a)))
                  (ranked_before a b))
    score_classes) as Hall.
  specialize (Hall ltac:(vm_compute; reflexivity) a b Ha Hb). cbn beta in Hall.
  by rewrite Hle in Hall.
Qed.

(** [in_list] proves that a closed value is in a closed list. *)
Ltac in_list :=
  apply list_elem_of_In; vm_compute; repeat (first [by left | right]).

(** A scored issue whose severity is one of the five is in a score class. *)
Lemma scored_class (x x' : issue) s :
  score_issue x = Ret x' →
  x !! "severity" = Some (VStr s) → s ∈ severity_order →
  ∃ c, c ∈ score_classes
       ∧ sort_key x' = Ret (key_of_class c)
       ∧ score_of x' = Some c.1
       ∧ severity_index x' = Some c.2.
Proof.
  intros Hscore Hsev Hs.
  destruct (sort_key_scored _ _ Hscore)
    as (sev & ty & Hsev0 & _ & Hsev' & Hscore' & Hkey).
  assert (sev = VStr s) as -> by congruence.
  unfold severity_index. rewrite Hsev', Hscore', Hkey.
  unfold get_priority_score.
  pose proof (multiplier_cases ty) as Hm.
  unfold severity_order in Hs.
  enumerate Hs; enumerate Hm; rewrite Hm;
    (eexists (_, _); split; [|split; [|split]];
     [| |cbn [fst]; reflexivity|vm_compute; reflexivity];
     [in_list|vm_compute; reflexivity]).
Qed.

(** The keys of scored issues with ranked severities are all computed, and
    each is the key of a score class. *)
Lemma scored_keys issues scored :
  score_issues issues = Ret scored →
  Forall (λ x : issue, ∃ s, x !! "severity" = Some (VStr s) ∧ s ∈ severity_order)
    issues →
  ∃ cs,
    traverse sort_key scored = Ret (key_of_class <$> cs)
    ∧ Forall (λ a : (num * Z) * issue,
        ∃ c, c ∈ score_classes ∧ a.1 = key_of_class c
             ∧ score_of a.2 = Some c.1 ∧ severity_index a.2 = Some c.2)
        (zip (key_of_class <$> cs) scored).
Proof.
  intros Hscored%traverse_Ret. induction Hscored as [|x x' issues scored Hx _ IH];
    intros Hranked.
  { exists []. split; [done|constructor]. }
  apply Forall_cons in Hranked as [(s & Hsev & Hs) Hranked].
  destruct (IH Hranked) as (cs & Hkeys & Hinv).
  destruct (scored_class _ _ _ Hx Hsev Hs) as (c & Hc & Hkey & Hscore & Hindex).
  exists (c :: cs). split.
  - cbn [traverse fmap list_fmap]. rewrite Hkey. cbn. by rewrite Hkeys.
  - cbn [fmap list_fmap zip zip_with]. constructor; [|done]. by exists c.
Qed.

(** C3. The ranking step, applied to scored issues whose severities are all
    among BLOCKER, CRITICAL, MAJOR, MINOR, INFO, returns the same issues
    sorted by descending [priority_score]: of two issues, the one that comes
    first has a score at least as high, and when the scores are equal its
    severity is not further down that list. The severities are the strings
    the two issues carry, and their places are places of the list itself,
    BLOCKER at 0 and INFO at 4. *)
Theorem ranking_sorts_by_score_then_severity issues scored :
  score_issues issues = Ret scored →
  Forall (λ x : issue, ∃ s, x !! "severity" = Some (VStr s) ∧ s ∈ severity_order)
    issues →
  ∃ ranked,
    sort_issues scored = Ret ranked
    ∧ scored ≡ₚ ranked
    ∧ ∀ (i j : nat) (x y : issue),
        (i < j)%nat → ranked !! i = Some x → ranked !! j = Some y →
        ∃ (sx sy : float) (vx vy : string) (ix iy : nat),
          score_of x = Some sx ∧ score_of y = Some sy
          ∧ x !! "severity" = Some (VStr vx) ∧ y !! "severity" = Some (VStr vy)
          ∧ severity_order !! ix = Some vx ∧ severity_order !! iy = Some vy
          ∧ PrimFloat.leb sy sx = true
          ∧ (PrimFloat.eqb sx sy = true → (ix ≤ iy)%nat).
Proof.
  intros Hscored Hranked.
  destruct (scored_keys _ _ Hscored Hranked) as (cs & Hkeys & Hinv).
  destruct (sort_issues_Ret _ _ Hkeys) as [Hsort Hperm].
  eexists. split; [exact Hsort|]. split; [exact Hperm|].
  set (pairs := zip (key_of_class <$> cs) scored) in *.
  assert (StronglySorted key_le (sort_keyed pairs)) as Hsorted.
  { apply (sort_keyed_sorted (λ k, ∃ c, c ∈ score_classes ∧ k = key_of_class c)).
    - intros ? ? (a & Ha & ->) (b & Hb & ->). by apply class_key_asym.
    - intros ? ? ? (a & Ha & ->) (b & Hb & ->) (c & Hc & ->).
      by apply class_key_le_trans.
    - eapply Forall_impl; [exact Hinv|]. cbn beta.
      intros a (c & Hc & Hk & _). by exists c. }
  rewrite <- (sort_keyed_perm pairs) in Hinv.
  intros i j x y Hij Hi Hj.
  apply list_lookup_fmap_Some in Hi as ([kx x0] & -> & Hi).
  apply list_lookup_fmap_Some in Hj as ([ky y0] & -> & Hj).
  pose proof (StronglySorted_lookup _ _ _ _ _ _ Hsorted Hij Hi Hj) as Hle.
  rewrite Forall_lookup in Hinv.
  destruct (Hinv _ _ Hi) as (cx & Hcx & Hkx & Hsx & Hix).
  destruct (Hinv _ _ Hj) as (cy & Hcy & Hky & Hsy & Hiy).
  unfold key_le in Hle. cbn [fst snd] in *. subst kx ky.
  pose proof (class_ranked_before _ _ Hcx Hcy Hle) as Hbefore.
  unfold ranked_before in Hbefore. apply andb_true_iff in Hbefore as [Hleb Htie].
  destruct (severity_index_position _ _ Hix) as (vx & Hvx & Hix0 & Hpx).
  destruct (severity_index_position _ _ Hiy) as (vy & Hvy & Hiy0 & Hpy).
  exists cx.1, cy.1, vx, vy, (Z.to_nat cx.2), (Z.to_nat cy.2).
  repeat (split; [done|]).
  intros Heq. rewrite Heq in Htie. apply Z.leb_le in Htie. lia.
Qed.

Lemma ranking_sorts_by_score_then_severity_witness :
  score_issues [minor_issue; sample_issue]
    = Ret [with_score 3 minor_issue; with_score 3 sample_issue]
  ∧ sort_issues [with_score 3 minor_issue; with_score 3 sample_issue]
    = Ret [with_score 3 sample_issue; with_score 3 minor_issue].
Proof.
  assert (score_issues [minor_issue; sample_issue]
          = Ret [with_score 3 minor_issue; with_score 3 sample_issue])
    as Hscored.
  { apply traverse_Ret. constructor; [|constructor; [|constructor]].
    - apply (score_issue_with_score _ (VStr "MINOR") (VStr "VULNERABILITY"));
        vm_compute; reflexivity.
    - exact score_sample_issue. }
  split; [exact Hscored|].
  destruct (ranking_sorts_by_score_then_severity _ _ Hscored)
    as (ranked & Hsort & Hperm & Hrank).
  { constructor; [|constructor; [|constructor]].
    - exists "MINOR". split; [vm_compute; reflexivity|by_decide].
    - exists "MAJOR". split; [vm_compute; reflexivity|by_decide]. }
  (* the two issues are tied at 3.0, and MINOR stands behind MAJOR in the
     list: the order of the fetch is not the order of the ranking *)
  apply Permutation_length_2_inv in Hperm as [Hsame|Hswapped];
    [exfalso|by rewrite Hsort, Hswapped].
  destruct (Hrank 0%nat 1%nat (with_score 3 minor_issue)
              (with_score 3 sample_issue))
    as (sx & sy & vx & vy & ix & iy
        & Hsx & Hsy & Hvx & Hvy & Hpx & Hpy & _ & Htie);
    [lia|by rewrite Hsame..|].
  vm_compute in Hsx, Hsy, Hvx, Hvy.
  injection Hsx as <-. injection Hsy as <-.
  injection Hvx as <-. injection Hvy as <-.
  assert (ix = 3%nat) as ->.
  { do 5 (destruct ix as [|ix]; [by vm_compute in Hpx|]). done. }
  assert (iy = 2%nat) as ->.
  { do 5 (destruct iy as [|iy]; [by vm_compute in Hpy|]). done. }
  assert (PrimFloat.eqb 3 3 = true) as Heq by (vm_compute; reflexivity).
  specialize (Htie Heq). lia.
Defined.

(** A tie and how it is broken: a MINOR vulnerability and a MAJOR code smell
    both score 3.0, and the MAJOR one is ranked first. *)
Example ranking_breaks_a_tie :
  sort_issues [with_score 3 minor_issue; with_score 3 sample_issue]
  = Ret [with_score 3 sample_issue; with_score 3 minor_issue].
Proof.
  assert (traverse sort_key [with_score 3 minor_issue; with_score 3 sample_issue]
          = Ret [(Float (-3), 3); (Float (-3), 2)]) as Hkeys
    by (vm_compute; reflexivity).
  unfold sort_issues. rewrite Hkeys. reflexivity.
Qed.

(** ** The table rows *)

Lemma length_str_take n s :
  String.length (str_take n s) = Nat.min n (String.length s).
Proof.
  revert s. induction n as [|n IH]; intros [|c s]; cbn; [done..|]. by rewrite IH.
Qed.

Lemma str_take_all n s : (String.length s ≤ n)%nat → str_take n s = s.
Proof.
  revert s. induction n as [|n IH]; intros [|c s]; cbn; [done|lia|done|].
  intros Hlen. f_equal. apply IH. lia.
Qed.

Lemma str_take_prefix n s : ∃ rest, s = str_take n s +:+ rest.
Proof.
  revert s. induction n as [|n IH]; intros [|c s]; cbn;
    [by exists ""|by eexists|by exists ""|].
  destruct (IH s) as [rest Hrest]. exists rest.
  transitivity (String c (str_take n s +:+ rest)); [by f_equal|reflexivity].
Qed.

Lemma string_app_assoc (a b c : string) : a +:+ (b +:+ c) = (a +:+ b) +:+ c.
Proof.
  induction a as [|x a IH]; [done|].
  change (String x (a +:+ (b +:+ c)) = String x ((a +:+ b) +:+ c)).
  by rewrite IH.
Qed.

Lemma split_nonempty sep s : split sep s ≠ [].
Proof.
  destruct s as [|c s]; cbn; [done|].
  destruct (Ascii.eqb c sep); [done|]. by destruct (split sep s).
Qed.

(** Joining the segments with the separator gives the string back. *)
Lemma join_split sep s : join sep (split sep s) = s.
Proof.
  induction s as [|c s IH]; [done|]. cbn [split].
  pose proof (split_nonempty sep s) as Hne.
  destruct (Ascii.eqb_spec c sep) as [->|_].
  - destruct (split sep s) as [|seg segs]; [done|].
    cbn [join] in *. cbn. by rewrite IH.
  - destruct (split sep s) as [|seg segs]; [done|].
    destruct segs as [|seg' segs]; cbn [join] in *; cbn; by rewrite <- IH.
Qed.

(** No segment holds the separator. *)
Lemma split_no_sep sep s : Forall (λ seg, contains sep seg = false) (split sep s).
Proof.
  induction s as [|c s IH]; [by repeat constructor|]. cbn [split].
  destruct (Ascii.eqb c sep) eqn:Hc; [by constructor|].
  pose proof (split_nonempty sep s) as Hne.
  destruct (split sep s) as [|seg segs]; [done|].
  apply Forall_cons in IH as [Hseg Hsegs]. constructor; [|done].
  cbn. by rewrite Hc.
Qed.

Lemma join_last sep (l : list string) :
  join sep l = List.last l ""
  ∨ ∃ prefix, join sep l = prefix +:+ String sep (List.last l "").
Proof.
  induction l as [|x l IH]; [by left|].
  destruct l as [|y l]; [by left|]. right.
  change (List.last (x :: y :: l) "") with (List.last (y :: l) "").
  change (join sep (x :: y :: l)) with (x +:+ String sep (join sep (y :: l))).
  destruct IH as [->|[prefix ->]]; [by exists x|].
  exists (x +:+ String sep prefix).
  exact (string_app_assoc x (String sep prefix)
           (String sep (List.last (y :: l) ""))).
Qed.

(** The last segment: free of the separator, and either the whole string or
    what follows its last separator. *)
Lemma last_segment sep s :
  let segment := List.last (split sep s) "" in
  contains sep segment = false
  ∧ (s = segment ∨ ∃ prefix, s = prefix +:+ String sep segment).
Proof.
  cbn zeta. split.
  - pose proof (split_no_sep sep s) as Hall.
    pose proof (split_nonempty sep s) as Hne.
    induction Hall as [|seg segs Hseg Hsegs IH]; [done|].
    destruct segs as [|seg' segs]; [done|]. by apply IH.
  - pose proof (join_last sep (split sep s)) as Hjoin.
    by rewrite join_split in Hjoin.
Qed.

Lemma table_row_well_formed idx (x : issue) t sev ty m c :
  x !! "severity" = Some sev → x !! "type" = Some ty →
  x !! "message" = Some (VStr m) → x !! "component" = Some (VStr c) →
  table_row idx x t
  = Ret (Table (table_data t
                ++ [[VNum (Int idx); sev; ty; VStr (str_take 60 m);
                     VStr (List.last (split ":" c) ""); line_cell x]])
           (counter_incr sev (severity_counts t))
           (counter_incr ty (type_counts t))).
Proof.
  intros Hsev Hty Hm Hc.
  unfold table_row, getitem, message_cell, component_cell.
  by rewrite Hsev, Hty, Hm, Hc.
Qed.

Lemma build_table_spec top_issues idx t0 :
  Forall well_formed top_issues →
  ∃ t rows,
    build_table idx top_issues t0 = Ret t
    ∧ table_data t = table_data t0 ++ rows
    ∧ length rows = length top_issues
    ∧ ∀ (k : nat) (x : issue) sev ty m c,
        top_issues !! k = Some x →
        x !! "severity" = Some sev → x !! "type" = Some ty →
        x !! "message" = Some (VStr m) → x !! "component" = Some (VStr c) →
        rows !! k
        = Some [VNum (Int (idx + Z.of_nat k)); sev; ty; VStr (str_take 60 m);
                VStr (List.last (split ":" c) ""); line_cell x].
Proof.
  intros Hwf. revert idx t0.
  induction Hwf as [|x top_issues Hx _ IH]; intros idx t0.
  { exists t0, []. split; [done|]. split; [by rewrite app_nil_r|].
    split; [done|]. by intros []. }
  destruct Hx as ([sev Hsev] & [ty Hty] & [m Hm] & [c Hc]).
  cbn [build_table]. rewrite (table_row_well_formed _ _ _ _ _ _ _ Hsev Hty Hm Hc).
  cbn [mbind outcome_bind obind].
  destruct (IH (idx + 1) (Table (table_data t0
                ++ [[VNum (Int idx); sev; ty; VStr (str_take 60 m);
                     VStr (List.last (split ":" c) ""); line_cell x]])
           (counter_incr sev (severity_counts t0))
           (counter_incr ty (type_counts t0))))
    as (t & rows & Hrun & Hdata & Hlen & Hrows).
  cbn [table_data] in Hdata. rewrite <- app_assoc in Hdata.
  exists t, ([VNum (Int idx); sev; ty; VStr (str_take 60 m);
               VStr (List.last (split ":" c) ""); line_cell x] :: rows).
  split; [exact Hrun|]. split; [exact Hdata|].
  split; [cbn [length]; by rewrite Hlen|].
  intros [|k] y sev' ty' m' c' Hy Hsev' Hty' Hm' Hc'.
  - injection Hy as <-.
    assert (sev' = sev ∧ ty' = ty ∧ m' = m ∧ c' = c) as (-> & -> & -> & ->)
      by (repeat split; congruence).
    cbn. by rewrite Z.add_0_r.
  - cbn in Hy. cbn [lookup list_lookup].
    etrans; [exact (Hrows k y sev' ty' m' c' Hy Hsev' Hty' Hm' Hc')|].
    do 4 f_equal. lia.
Qed.

(** C8. The table built from well-formed issues has one row per issue, in
    order, and the row of the issue at position [k] holds: the index [k + 1];
    the severity; the type; the message, cut to its first 60 characters when
    it is longer and as it is otherwise; the last colon-delimited segment of
    the component; and the line, or a dash when the issue has none. These
    rows are what [main] hands to [tabulate]. *)
Theorem table_rows top_issues :
  Forall well_formed top_issues →
  ∃ t,
    build_table 1 top_issues (Table [] [] []) = Ret t
    ∧ length (table_data t) = length top_issues
    ∧ ∀ (k : nat) (x : issue) sev ty m c,
        top_issues !! k = Some x →
        x !! "severity" = Some sev → x !! "type" = Some ty →
        x !! "message" = Some (VStr m) → x !! "component" = Some (VStr c) →
        ∃ message component line,
          table_data t !! k
          = Some [VNum (Int (Z.of_nat k + 1)); sev; ty; VStr message;
                  VStr component; line]
          ∧ message = str_take 60 m
          ∧ ((60 < String.length m)%nat →
             String.length message = 60%nat ∧ ∃ rest, m = message +:+ rest)
          ∧ ((String.length m ≤ 60)%nat → message = m)
          ∧ component = List.last (split ":" c) ""
          ∧ contains ":" component = false
          ∧ (c = component ∨ ∃ prefix, c = prefix +:+ ":" +:+ component)
          ∧ (∀ n, x !! "line" = Some n → line = n)
          ∧ (x !! "line" = None → line = VStr "-").
Proof.
  intros Hwf.
  destruct (build_table_spec top_issues 1 (Table [] [] []) Hwf)
    as (t & rows & Hrun & Hdata & Hlen & Hrows).
  cbn [table_data app] in Hdata. subst rows.
  exists t. split; [exact Hrun|]. split; [exact Hlen|].
  intros k x sev ty m c Hx Hsev Hty Hm Hc.
  exists (str_take 60 m), (List.last (split ":" c) ""), (line_cell x).
  split.
  { rewrite (Hrows k x sev ty m c Hx Hsev Hty Hm Hc). do 4 f_equal. lia. }
  split; [done|]. split.
  { intros Hlong. split; [rewrite length_str_take; lia|apply str_take_prefix]. }
  split; [apply str_take_all|]. split; [done|].
  destruct (last_segment ":" c) as [Hfree Hlast].
  split; [exact Hfree|]. split; [exact Hlast|].
  unfold line_cell. split; [by intros n ->|by intros ->].
Qed.

Lemma table_rows_witness :
  ∃ t,
    build_table 1 [sample_issue; minor_issue] (Table [] [] []) = Ret t
    ∧ table_data t !! 0%nat
      = Some [VNum (Int 1); VStr "MAJOR"; VStr "CODE_SMELL";
              VStr "Remove this unused import."; VStr "src/foo/Bar.java";
              VNum (Int 12)]
    ∧ table_data t !! 1%nat
      = Some [VNum (Int 2); VStr "MINOR"; VStr "VULNERABILITY";
              VStr "Use a stronger hash function here: MD5 is broken and must no";
              VStr "src/hash.py"; VStr "-"].
Proof.
  assert (Forall well_formed [sample_issue; minor_issue]) as Hwf.
  { repeat constructor; eexists; vm_compute; reflexivity. }
  destruct (table_rows _ Hwf) as (t & Hrun & _ & Hrows).
  exists t. split; [exact Hrun|]. split.
  - destruct (Hrows 0%nat sample_issue (VStr "MAJOR") (VStr "CODE_SMELL")
                "Remove this unused import." "project:src/foo/Bar.java")
      as (message & component & line & -> & -> & _ & _ & -> & _ & _ & Hline & _);
      [reflexivity|vm_compute; reflexivity..|].
    rewrite (Hline (VNum (Int 12))) by (vm_compute; reflexivity).
    vm_compute. reflexivity.
  - destruct (Hrows 1%nat minor_issue (VStr "MINOR") (VStr "VULNERABILITY")
                "Use a stronger hash function here: MD5 is broken and must not protect data."
                "src/hash.py")
      as (message & component & line & -> & -> & _ & _ & -> & _ & _ & _ & Hline);
      [reflexivity|vm_compute; reflexivity..|].
    rewrite Hline by (vm_compute; reflexivity).
    vm_compute. reflexivity.
Defined.

(** * Further properties of the code *)

(** [lookup_cases H i] splits a lookup [H] at position [i] of an explicit
    list into its cases. *)
Ltac lookup_cases H i :=
  repeat (destruct i as [|i]; cbn in H; [injection H as <-|]);
  [..|by cbn in H].

(** ** The scorer orders severities and types *)

Lemma severity_score_cases (severity : value) :
  dict_get severity_scores severity 0 ∈ [5; 4; 3; 2; 1; 0].
Proof.
  destruct severity as [|n|s]; cbn [dict_get]; [by_decide..|].
  rewrite severity_scores_lookup.
  repeat (case_decide; [cbn [default from_option id]; by_decide|]). by_decide.
Qed.

(** X1. Whatever the severity and the type, the score is a number from 0 to
    7.5 (never a NaN); and for every type, known or not, a severity earlier in
    BLOCKER, CRITICAL, MAJOR, MINOR, INFO scores strictly higher than a later
    one, and INFO scores strictly higher than an unknown severity. *)
Theorem get_priority_score_by_severity :
  (∀ severity type_,
      PrimFloat.leb 0 (get_priority_score severity type_) = true
      ∧ PrimFloat.leb (get_priority_score severity type_) 7.5 = true)
  ∧ (∀ (i j : nat) s s' type_,
      severity_order !! i = Some s → severity_order !! j = Some s' →
      (i < j)%nat →
      PrimFloat.ltb (get_priority_score (VStr s') type_)
                    (get_priority_score (VStr s) type_) = true)
  ∧ (∀ severity type_,
      (∀ s, severity = VStr s → s ∉ severity_order) →
      PrimFloat.ltb (get_priority_score severity type_)
                    (get_priority_score (VStr "INFO") type_) = true).
Proof.
  split; [|split].
  - intros severity type_. unfold get_priority_score.
    pose proof (severity_score_cases severity) as Hs.
    pose proof (multiplier_cases type_) as Hm.
    enumerate Hs; rewrite Hs; enumerate Hm; rewrite Hm; by vm_compute.
  - intros i j s s' type_ Hi Hj Hij. unfold get_priority_score.
    pose proof (multiplier_cases type_) as Hm.
    unfold severity_order in Hi, Hj.
    lookup_cases Hi i; lookup_cases Hj j; try lia;
      enumerate Hm; rewrite Hm; by vm_compute.
  - intros severity type_ Hs. rewrite (get_priority_score_unknown _ _ Hs).
    unfold get_priority_score.
    pose proof (multiplier_cases type_) as Hm.
    enumerate Hm; rewrite Hm; by vm_compute.
Qed.

Lemma get_priority_score_by_severity_witness :
  PrimFloat.ltb (get_priority_score (VStr "INFO") (VStr "BUG"))
                (get_priority_score (VStr "BLOCKER") (VStr "BUG")) = true
  ∧ PrimFloat.ltb (get_priority_score (VStr "TRIVIAL") VNone)
                  (get_priority_score (VStr "INFO") VNone) = true.
Proof.
  destruct get_priority_score_by_severity as (_ & Horder & Hunknown).
  split.
  - apply (Horder 0%nat 4%nat); [reflexivity..|]. repeat constructor.
  - apply Hunknown. intros s [= <-]. by_decide.
Defined.

(** X2. For each of the five severities, the types are ordered
    VULNERABILITY, BUG, SECURITY_HOTSPOT, CODE_SMELL by strictly decreasing
    score, and every type outside this table scores as CODE_SMELL does. *)
Theorem get_priority_score_by_type :
  (∀ (i j : nat) t t' s,
      ["VULNERABILITY"; "BUG"; "SECURITY_HOTSPOT"; "CODE_SMELL"] !! i = Some t →
      ["VULNERABILITY"; "BUG"; "SECURITY_HOTSPOT"; "CODE_SMELL"] !! j = Some t' →
      (i < j)%nat → s ∈ severity_order →
      PrimFloat.ltb (get_priority_score (VStr s) (VStr t'))
                    (get_priority_score (VStr s) (VStr t)) = true)
  ∧ (∀ severity type_,
      (∀ t, type_ = VStr t →
            t ∉ ["VULNERABILITY"; "BUG"; "SECURITY_HOTSPOT"; "CODE_SMELL"]) →
      get_priority_score severity type_
      = get_priority_score severity (VStr "CODE_SMELL")).
Proof.
  split.
  - intros i j t t' s Hi Hj Hij Hs. unfold severity_order in Hs.
    lookup_cases Hi i; lookup_cases Hj j; try lia;
      enumerate Hs; by vm_compute.
  - intros severity type_ Ht. unfold get_priority_score. f_equal.
    destruct type_ as [|n|t]; cbn [dict_get]; [done..|].
    rewrite !type_multiplier_lookup. specialize (Ht t eq_refl).
    repeat (case_decide; [subst; exfalso; apply Ht; by_decide|]). done.
Qed.

Lemma get_priority_score_by_type_witness :
  PrimFloat.ltb (get_priority_score (VStr "MAJOR") (VStr "CODE_SMELL"))
                (get_priority_score (VStr "MAJOR") (VStr "VULNERABILITY")) = true
  ∧ get_priority_score (VStr "MAJOR") (VStr "DEFECT")
    = get_priority_score (VStr "MAJOR") (VStr "CODE_SMELL").
Proof.
  destruct get_priority_score_by_type as (Horder & Hother).
  split.
  - apply (Horder 0%nat 3%nat); [reflexivity..| |by_decide]. repeat constructor.
  - apply Hother. intros t [= <-]. by_decide.
Defined.

(** ** The client's base URL *)

Lemma rstrip_spec c s :
  (∃ k, s = rstrip c s +:+ str_repeat c k)
  ∧ ∀ t, rstrip c s ≠ t +:+ String c "".
Proof.
  induction s as [|a s [[k Hk] Hend]]; cbn [rstrip].
  { split; [by exists 0%nat|]. by intros [|b t]. }
  destruct (rstrip c s) as [|b r] eqn:Hr.
  - destruct (Ascii.eqb_spec a c) as [->|Hne].
    + split; [|by intros [|b t]]. exists (S k).
      change (String c s = String c (str_repeat c k)). by rewrite Hk.
    + split.
      * exists k. change (String a s = String a (str_repeat c k)). by rewrite Hk.
      * intros [|b t]; [intros [= ->]; done|].
        change (String a "" ≠ String b (t +:+ String c "")).
        intros [= _ Ht]. by destruct t.
  - split.
    + exists k.
      change (String a s = String a (String b r +:+ str_repeat c k)).
      by rewrite <- Hk.
    + intros [|b' t]; [done|].
      change (String a (String b r) ≠ String b' (t +:+ String c "")).
      intros [= _ Ht]. by apply (Hend t).
Qed.

(** X3. [SonarQubeClient.__init__] keeps the token and the project key as
    given and stores the base URL without its trailing slashes: the URL given
    is the stored one followed by slashes only, and the stored one does not
    end in a slash, so that the search URL has a single slash before
    "api". *)
Theorem new_client_strips_trailing_slashes base tok key :
  let self := new_client base tok key in
  (∃ k, base = base_url self +:+ str_repeat "/" k)
  ∧ (∀ t, base_url self ≠ t +:+ "/")
  ∧ token self = tok
  ∧ project_key self = key
  ∧ ∀ page, req_url (search_request self page)
            = base_url self +:+ "/api/issues/search".
Proof.
  cbn zeta. destruct (rstrip_spec "/" base) as [Hsplit Hend].
  split; [exact Hsplit|]. split; [exact Hend|]. done.
Qed.

(** ** The requests of [get_issues] *)

Lemma lookup_requests_from self page n (i : nat) r :
  requests_from self page n !! i = Some r →
  (i < n)%nat ∧ r = search_request self (page + Z.of_nat i).
Proof.
  revert page i. induction n as [|n IH]; intros page i; [done|].
  destruct i as [|i]; cbn [requests_from lookup list_lookup].
  - intros [= <-]. split; [lia|]. by rewrite Z.add_0_r.
  - intros [Hi ->]%IH. split; [lia|]. f_equal. lia.
Qed.

Lemma get_issues_loop_bound server fuel self limit all_issues page w :
  (Z.to_nat (limit - len all_issues) ≤ fuel)%nat →
  ∃ n : nat,
    let run := get_issues_loop server fuel self limit all_issues page w in
    (n ≤ Z.to_nat (limit - len all_issues))%nat
    ∧ sent run.2 = sent w ++ requests_from self page n
    ∧ (run.1 = Exit 1 ∨ ∃ l, run.1 = Ret l).
Proof.
  revert all_issues page w.
  induction fuel as [|fuel IH]; intros all_issues page w Hfuel.
  { exists 0%nat. rewrite get_issues_loop_done by lia. cbn.
    rewrite app_nil_r. split; [lia|]. split; [done|]. right. by eexists. }
  rewrite get_issues_loop_unfold.
  destruct (Z.ltb_spec (len all_issues) limit) as [Hlt|Hge]; cbn zeta.
  2:{ exists 0%nat. cbn. rewrite app_nil_r. split; [lia|]. split; [done|].
      right. by eexists. }
  destruct (server (sent w) (search_request self page)) as [e|data].
  { exists 1%nat. cbn. split; [lia|]. split; [done|]. by left. }
  destruct (default [] (issues_field data)) as [|x l].
  { exists 1%nat. cbn. split; [lia|]. split; [done|]. right. by eexists. }
  destruct (_ <=? _).
  { exists 1%nat. cbn. split; [lia|]. split; [done|]. right. by eexists. }
  destruct (IH (all_issues ++ x :: l) (page + 1)
              (World (stdout w) (sent w ++ [search_request self page])))
    as (n & Hn & Hsent & Hrun).
  { unfold len in *. rewrite length_app. cbn [length]. lia. }
  cbn zeta in Hn, Hsent, Hrun. cbn [sent] in Hsent.
  exists (S n). cbn zeta. split.
  { unfold len in *. rewrite length_app in Hn. cbn [length] in Hn. lia. }
  split; [|done]. rewrite Hsent, <- app_assoc. done.
Qed.

(** X4. [get_issues] comes to an end after at most [limit] requests (none
    when [limit] is not positive): the loop does not go on for ever. Its
    requests ask for the pages 1, 2, 3, ... in this order, once each, every
    one with the client's URL, token and project key, the branch "main", the
    status "OPEN", the type "CODE_SMELL", the page size 100 and the
    timeout 10. *)
Theorem get_issues_requests server self limit w :
  ∃ n : nat,
    let run := get_issues server self limit w in
    Z.of_nat n ≤ Z.max 0 limit
    ∧ length (sent run.2) = (length (sent w) + n)%nat
    ∧ take (length (sent w)) (sent run.2) = sent w
    ∧ run.1 ≠ OutOfFuel
    ∧ ∀ (i : nat) r,
        sent run.2 !! (length (sent w) + i)%nat = Some r →
        r = {| req_url := base_url self +:+ "/api/issues/search";
               req_auth := (token self, "");
               componentKeys := project_key self;
               branch := "main"; statuses := "OPEN"; types := "CODE_SMELL";
               p := Z.of_nat i + 1; ps := 100; timeout := 10 |}.
Proof.
  destruct (get_issues_loop_bound server (Z.to_nat limit) self limit [] 1 w)
    as (n & Hn & Hsent & Hrun).
  { unfold len. cbn. lia. }
  cbn zeta in Hn, Hsent, Hrun.
  exists n. cbn zeta. unfold get_issues, mbind, prog_bind.
  destruct (get_issues_loop server (Z.to_nat limit) self limit [] 1 w)
    as [o w1].
  cbn [fst snd] in Hsent, Hrun.
  assert (Z.of_nat n ≤ Z.max 0 limit) as Hbound
    by (unfold len in Hn; cbn in Hn; lia).
  destruct Hrun as [->|[l ->]]; unfold mret, prog_ret; cbn [fst snd];
    rewrite Hsent;
    (split; [exact Hbound|]);
    (split; [by rewrite length_app, length_requests_from|]);
    (split; [by rewrite take_app_length|]);
    (split; [done|]).
  all: intros i r; rewrite lookup_app_r by lia.
  all: replace (length (sent w) + i - length (sent w))%nat with i by lia.
  all: intros [_ ->]%lookup_requests_from; unfold search_request, page_size.
  all: f_equal; lia.
Qed.

(** X5. When the limit is positive and the first answer is a body without
    issues (an empty list or no "issues" field), [get_issues] returns the
    empty list after this one request, whatever total the body reports, and
    prints nothing. *)
Theorem get_issues_empty_first_page server self limit w data :
  0 < limit →
  server (sent w) (search_request self 1) = Json data →
  default [] (issues_field data) = [] →
  get_issues server self limit w
  = (Ret [], World (stdout w) (sent w ++ [search_request self 1])).
Proof.
  intros Hlimit Hanswer Hempty. unfold get_issues, mbind, prog_bind.
  destruct (Z.to_nat limit) as [|fuel] eqn:Hfuel; [lia|].
  rewrite get_issues_loop_unfold.
  destruct (Z.ltb_spec (len (@nil issue)) limit) as [_|Hge];
    [|unfold len in Hge; cbn in Hge; lia].
  cbn zeta. rewrite Hanswer, Hempty. unfold mret, prog_ret.
  by rewrite slice_to_take, take_nil by (by right).
Qed.

Lemma get_issues_empty_first_page_witness :
  get_issues (constant_service [] 40) sample_client 500 (World [] [])
  = (Ret [], World [] [search_request sample_client 1]).
Proof.
  apply (get_issues_empty_first_page (constant_service [] 40) sample_client 500
           (World [] []) (Payload (Some []) (Some 40))); [lia|reflexivity..].
Defined.

(** X6. With a limit that is not positive, [get_issues] returns the empty
    list at once: it sends no request and prints nothing. *)
Theorem get_issues_without_limit server self limit w :
  limit ≤ 0 → get_issues server self limit w = (Ret [], w).
Proof.
  intros Hlimit. unfold get_issues, mbind, prog_bind.
  rewrite get_issues_loop_done by (unfold len; cbn; lia).
  unfold mret, prog_ret. by rewrite slice_to_take, take_nil by (by right).
Qed.

Lemma get_issues_without_limit_witness :
  get_issues (constant_service [sample_issue] 1) sample_client 0 (World [] [])
  = (Ret [], World [] []).
Proof.
  apply (get_issues_without_limit (constant_service [sample_issue] 1)
           sample_client 0 (World [] [])).
  lia.
Defined.

(** X7. Against a service that holds the issues [db], serves them in pages
    of 100 and reports their number, [get_issues] with a positive limit
    returns the first [limit] issues of [db] (all of them when there are
    fewer), in order, without printing; it asks for
    [ceil (min (limit, |db|) / 100)] pages, and for one page when [db] is
    empty. *)
Theorem get_issues_paged (db : list issue) self limit w :
  0 < limit →
  ∃ n : nat,
    get_issues (paged_service db) self limit w
    = (Ret (take (Z.to_nat limit) db),
       World (stdout w) (sent w ++ requests_from self 1 n))
    ∧ Z.of_nat n = Z.max 1 ((Z.min limit (len db) + 99) / 100).
Proof.
  intros Hlimit.
  destruct (paged_get_issues db self limit w Hlimit) as (n & Hrun & Hstop & Hmin).
  exists n. split; [exact Hrun|]. unfold len.
  assert (1 ≤ n)%nat as Hn by lia.
  specialize (Hmin (n - 1)%nat ltac:(lia)).
  destruct (decide (n = 1%nat)) as [->|Hne].
  - assert ((Z.min limit (Z.of_nat (length db)) + 99) / 100 < 2); [|lia].
    apply Z.div_lt_upper_bound; lia.
  - assert ((Z.min limit (Z.of_nat (length db)) + 99) / 100 = Z.of_nat n);
      [|lia].
    symmetry. apply Z.div_unique with
      (Z.min limit (Z.of_nat (length db)) + 99 - 100 * Z.of_nat n); lia.
Qed.

Lemma get_issues_paged_witness :
  ∃ n : nat,
    get_issues (paged_service (replicate 230 sample_issue)) sample_client 150
      (World [] [])
    = (Ret (take 150 (replicate 230 sample_issue)),
       World [] (requests_from sample_client 1 n))
    ∧ n = 2%nat.
Proof.
  destruct (get_issues_paged (replicate 230 sample_issue) sample_client 150
              (World [] [])) as (n & Hrun & Hn); [lia|].
  exists n. split; [exact Hrun|].
  apply Nat2Z.inj. rewrite Hn. vm_compute. reflexivity.
Defined.

(** ** Issues that lack a field *)

Lemma traverse_app_Raise {A B} (f : A → outcome B) (e : exn) done x rest :
  Forall (λ y, ∃ z, f y = Ret z) done → f x = Raise e →
  traverse f (done ++ x :: rest) = Raise e.
Proof.
  intros Hdone Hx. induction Hdone as [|y done [z Hy] _ IH]; cbn [app traverse].
  - by rewrite Hx.
  - rewrite Hy. cbn. by rewrite IH.
Qed.

Lemma score_issues_KeyError done (x : issue) rest key :
  Forall (λ y : issue, is_Some (y !! "severity") ∧ is_Some (y !! "type")) done →
  (x !! "severity" = None ∧ key = "severity")
  ∨ (is_Some (x !! "severity") ∧ x !! "type" = None ∧ key = "type") →
  score_issues (done ++ x :: rest) = Raise (KeyError key).
Proof.
  intros Hdone Hx. apply traverse_app_Raise.
  - eapply Forall_impl; [exact Hdone|]. cbn beta.
    intros y [[sev Hsev] [ty Hty]]. eexists.
    by apply (score_issue_with_score _ sev ty).
  - unfold score_issue, getitem.
    destruct Hx as [[-> ->]|([sev ->] & -> & ->)]; done.
Qed.

(** X8. If [get_issues] has returned issues of which one has no "severity"
    field, or has one but no "type" field, while the issues before it have
    both, then [main] ends with the uncaught [KeyError] of that field
    (severity is looked up first): exit status 1, and nothing is printed
    after the lines that precede the fetch — no table and no summary. *)
Theorem issue_without_field_is_fatal server tabulate float_repr environ w w'
    done (x : issue) rest key :
  falsy (environ !! "SONARQ_TOKEN") = false →
  get_issues server (configured_client environ) 500 (at_fetch environ w)
    = (Ret (done ++ x :: rest), w') →
  Forall (λ y : issue, is_Some (y !! "severity") ∧ is_Some (y !! "type")) done →
  (x !! "severity" = None ∧ key = "severity")
  ∨ (is_Some (x !! "severity") ∧ x !! "type" = None ∧ key = "type") →
  let run := main server tabulate float_repr environ w in
  run = (Raise (KeyError key), w')
  ∧ exit_status run.1 = Some 1
  ∧ stdout run.2 = stdout w ++ banner environ.
Proof.
  intros Htoken Hfetch Hdone Hx. cbn zeta.
  rewrite main_with_token, Hfetch by done.
  assert (report tabulate float_repr (done ++ x :: rest) w'
          = (Raise (KeyError key), w')) as Hreport.
  { unfold report, mbind at 1, prog_bind at 1, lift at 1.
    by rewrite (score_issues_KeyError _ _ _ _ Hdone Hx). }
  assert (match done ++ x :: rest with
          | [] => (Ret (), World (stdout w' ++ ["No issues found."]) (sent w'))
          | _ :: _ => report tabulate float_repr (done ++ x :: rest) w'
          end = (Raise (KeyError key), w')) as ->.
  { rewrite <- Hreport. by destruct done. }
  split; [done|]. split; [done|]. cbn [snd].
  destruct (get_issues_spec server (configured_client environ) 500
              (at_fetch environ w)) as (n & _ & Hrun).
  cbn zeta in Hrun. rewrite Hfetch in Hrun. cbn [fst snd] in Hrun.
  destruct Hrun as [(_ & _ & -> & _)|(? & ? & _ & _ & ? & _)]; done.
Qed.

Lemma issue_without_field_is_fatal_witness :
  (delete "severity" sample_issue : issue) !! "severity" = None
  ∧ main (constant_service [delete "severity" sample_issue] 1) no_table no_repr
      sample_environ (World [] [])
    = (Raise (KeyError "severity"),
       World (banner sample_environ)
         [search_request (configured_client sample_environ) 1]).
Proof.
  assert ((delete "severity" sample_issue : issue) !! "severity" = None)
    as Hnone by apply lookup_delete_eq.
  split; [exact Hnone|].
  refine (proj1 (issue_without_field_is_fatal
                   (constant_service [delete "severity" sample_issue] 1)
                   no_table no_repr sample_environ (World [] []) _
                   [] (delete "severity" sample_issue) [] "severity"
                   _ _ _ _)).
  - reflexivity.
  - unfold get_issues, mbind, prog_bind.
    change (Z.to_nat 500) with (S (Z.to_nat 499)).
    rewrite get_issues_loop_unfold. reflexivity.
  - constructor.
  - left. split; [exact Hnone|reflexivity].
Defined.

(** ** Rows of issues without a message or a component *)



(** ** The counters of the summary *)

Lemma eqb_VStr_r (k : value) s : eqb k (VStr s) = true ↔ k = VStr s.
Proof.
  destruct k as [|n|s']; cbn; [done..|].
  rewrite String.eqb_eq. split; congruence.
Qed.

Lemma same_key_VStr_r (k : value) s : same_key k (VStr s) = true ↔ k = VStr s.
Proof.
  unfold same_key. cbn [is_nan]. rewrite andb_false_r, orb_false_r.
  apply eqb_VStr_r.
Qed.

Lemma same_key_VStr_l (k : value) s : same_key (VStr s) k = true ↔ k = VStr s.
Proof.
  unfold same_key. cbn [is_nan andb]. rewrite orb_false_r.
  destruct k as [|n|s']; cbn; [done..|].
  rewrite String.eqb_eq. split; congruence.
Qed.

(** Counting under a string key: incrementing a key adds one to its own
    count and leaves the count of every other string as it is. *)
Lemma counter_get_incr (k : value) s (counts : counter) :
  counter_get (VStr s) (counter_incr k counts)
  = counter_get (VStr s) counts + (if eqb k (VStr s) then 1 else 0).
Proof.
  induction counts as [|[k' n] counts IH]; cbn [counter_incr counter_get].
  { destruct (same_key k (VStr s)) eqn:Hk.
    - apply same_key_VStr_r in Hk as ->. cbn. by rewrite String.eqb_refl.
    - destruct (eqb k (VStr s)) eqn:Hk'; [|done].
      apply eqb_VStr_r in Hk' as ->.
      by rewrite (proj2 (same_key_VStr_r _ _) eq_refl) in Hk. }
  destruct (same_key k' k) eqn:Hkk; cbn [counter_get].
  - destruct (same_key k' (VStr s)) eqn:Hks.
    + apply same_key_VStr_r in Hks as ->. apply same_key_VStr_l in Hkk as ->.
      cbn. by rewrite String.eqb_refl.
    + destruct (eqb k (VStr s)) eqn:Hk; [|lia].
      apply eqb_VStr_r in Hk as ->.
      assert (k' = VStr s) as ->.
      { unfold same_key in Hkk. cbn [is_nan] in Hkk.
        rewrite andb_false_r, orb_false_r in Hkk. by apply eqb_VStr_r. }
      by rewrite (proj2 (same_key_VStr_r _ _) eq_refl) in Hks.
  - destruct (same_key k' (VStr s)) eqn:Hks; [|exact IH].
    apply same_key_VStr_r in Hks as ->.
    destruct (eqb k (VStr s)) eqn:Hk; [|lia].
    apply eqb_VStr_r in Hk as ->.
    by rewrite (proj2 (same_key_VStr_r _ _) eq_refl) in Hkk.
Qed.

Lemma table_row_Ret idx (x : issue) t t' :
  table_row idx x t = Ret t' →
  ∃ sev ty row,
    x !! "severity" = Some sev ∧ x !! "type" = Some ty
    ∧ t' = Table (table_data t ++ [row])
             (counter_incr sev (severity_counts t))
             (counter_incr ty (type_counts t)).
Proof.
  unfold table_row, getitem, mbind, outcome_bind, obind.
  destruct (x !! "severity") as [sev|]; [|done].
  destruct (x !! "type") as [ty|]; [|done].
  destruct (message_cell x) as [message| | |]; [|done..].
  destruct (component_cell x) as [component| | |]; [|done..].
  intros [= <-]. by eexists _, _, _.
Qed.

Lemma count_field_cons field s (x : issue) l :
  count_field field s (x :: l)
  = (if has_field field s x then 1 else 0) + count_field field s l.
Proof.
  unfold count_field, len. rewrite filter_cons.
  destruct (has_field field s x); cbn.
  - rewrite decide_True by done. cbn [length]. lia.
  - rewrite decide_False by (by intros []). lia.
Qed.

(** The counters after the table loop, in terms of the issues displayed. *)
Lemma build_table_counters top_issues idx t0 t :
  build_table idx top_issues t0 = Ret t →
  length (table_data t) = (length (table_data t0) + length top_issues)%nat
  ∧ (∀ s, counter_get (VStr s) (severity_counts t)
          = counter_get (VStr s) (severity_counts t0)
            + count_field "severity" s top_issues)
  ∧ (∀ s, counter_get (VStr s) (type_counts t)
          = counter_get (VStr s) (type_counts t0)
            + count_field "type" s top_issues).
Proof.
  revert idx t0. induction top_issues as [|x top_issues IH]; intros idx t0.
  { intros [= <-]. unfold count_field, len. cbn. repeat split; intros; lia. }
  cbn [build_table]. unfold mbind, outcome_bind, obind.
  destruct (table_row idx x t0) as [t1| | |] eqn:Hrow; [|done..].
  apply table_row_Ret in Hrow as (sev & ty & row & Hsev & Hty & ->).
  intros (Hlen & Hsevs & Htys)%IH. cbn [table_data severity_counts type_counts] in *.
  rewrite length_app in Hlen. cbn [length] in *.
  split; [lia|].
  split; intros s; rewrite count_field_cons; unfold has_field.
  - rewrite Hsevs, counter_get_incr, Hsev.
    destruct sev as [|n|s']; cbn [eqb]; lia.
  - rewrite Htys, counter_get_incr, Hty.
    destruct ty as [|n|s']; cbn [eqb]; lia.
Qed.

(** X10. When the table is built, the counter of every severity name has
    grown by the number of displayed issues with that severity, and the
    counter of every type name by the number of displayed issues of that
    type, and there is one row more for every displayed issue: the
    breakdowns of the summary count the rows of the table. *)
Theorem build_table_counts top_issues idx t0 t :
  build_table idx top_issues t0 = Ret t →
  length (table_data t) = (length (table_data t0) + length top_issues)%nat
  ∧ (∀ s, counter_get (VStr s) (severity_counts t)
          = counter_get (VStr s) (severity_counts t0)
            + count_field "severity" s top_issues)
  ∧ (∀ s, counter_get (VStr s) (type_counts t)
          = counter_get (VStr s) (type_counts t0)
            + count_field "type" s top_issues).
Proof. exact (build_table_counters top_issues idx t0 t). Qed.

Lemma build_table_counts_witness :
  ∃ t,
    build_table 1 [sample_issue; minor_issue; sample_issue] (Table [] [] [])
      = Ret t
    ∧ length (table_data t) = 3%nat
    ∧ counter_get (VStr "MAJOR") (severity_counts t) = 2
    ∧ counter_get (VStr "MINOR") (severity_counts t) = 1
    ∧ counter_get (VStr "CODE_SMELL") (type_counts t) = 2.
Proof.
  destruct (build_table_spec [sample_issue; minor_issue; sample_issue] 1
              (Table [] [] [])) as (t & rows & Hrun & _).
  { repeat constructor; eexists; vm_compute; reflexivity. }
  exists t. split; [exact Hrun|].
  destruct (build_table_counts _ _ _ _ Hrun) as (Hlen & Hsevs & Htys).
  split; [exact Hlen|].
  rewrite !Hsevs, Htys. vm_compute. repeat split; reflexivity.
Defined.

(** ** How [main] ends *)

Lemma traverse_settled {A B} (f : A → outcome B) l :
  (∀ x, settled (f x)) → settled (traverse f l).
Proof.
  intros Hf. induction l as [|x l IH]; [done|]. cbn [traverse].
  unfold mbind, outcome_bind, obind. specialize (Hf x).
  destruct (f x); [|done..]. by destruct (traverse f l).
Qed.

Lemma index_settled l v : settled (index l v).
Proof.
  induction l as [|s l IH]; [done|]. cbn [index].
  destruct (eqb (VStr s) v); [done|]. by destruct (index l v).
Qed.

Lemma score_issue_settled x : settled (score_issue x).
Proof.
  unfold score_issue, getitem, mbind, outcome_bind, obind.
  destruct (x !! "severity"); [|done]. by destruct (x !! "type").
Qed.

Lemma sort_key_settled x : settled (sort_key x).
Proof.
  unfold sort_key, getitem, mbind, outcome_bind, obind.
  destruct (x !! "priority_score") as [[|n|s]|]; [done| |done..].
  cbn [neg]. destruct (x !! "severity") as [v|]; [|done].
  pose proof (index_settled severity_order v). by destruct (index _ v).
Qed.

Lemma sort_issues_settled l : settled (sort_issues l).
Proof.
  unfold sort_issues, mbind, outcome_bind, obind.
  pose proof (traverse_settled sort_key l sort_key_settled).
  by destruct (traverse sort_key l).
Qed.

Lemma table_row_settled idx x t : settled (table_row idx x t).
Proof.
  unfold table_row, getitem, message_cell, component_cell,
    mbind, outcome_bind, obind.
  destruct (x !! "severity"); [|done]. destruct (x !! "type"); [|done].
  destruct (default (VStr "N/A") (x !! "message")); [done..|].
  by destruct (default (VStr "N/A") (x !! "component")).
Qed.

Lemma build_table_settled l idx t : settled (build_table idx l t).
Proof.
  revert idx t. induction l as [|x l IH]; intros idx t; [done|].
  cbn [build_table]. unfold mbind, outcome_bind, obind.
  pose proof (table_row_settled idx x t). by destruct (table_row idx x t).
Qed.

Lemma insert_value_settled x l : settled (insert_value x l).
Proof.
  induction l as [|y l IH]; [done|]. cbn [insert_value].
  unfold mbind, outcome_bind, obind.
  destruct y as [|m|s], x as [|n|s']; cbn [ltb]; try done.
  - destruct (num_ltb m n); [|done]. by destruct (insert_value _ l).
  - destruct (String.ltb s s'); [|done]. by destruct (insert_value _ l).
Qed.

Lemma sorted_settled l : settled (sorted l).
Proof.
  induction l as [|x l IH]; [done|]. cbn [sorted].
  unfold mbind, outcome_bind, obind.
  destruct (sorted l); [|done..]. apply insert_value_settled.
Qed.

Lemma settles_lift {A} (o : outcome A) : settled o → settles (lift o).
Proof. by intros Ho w. Qed.

Lemma settles_print line : settles (print line).
Proof. done. Qed.

Lemma settles_ret {A} (a : A) : settles (mret a).
Proof. done. Qed.

Lemma settles_bind {A B} (m : prog A) (k : A → prog B) :
  settles m → (∀ a, settles (k a)) → settles (m ≫= k).
Proof.
  intros Hm Hk w. unfold mbind, prog_bind. specialize (Hm w).
  destruct (m w) as [[a|c|e|] w']; cbn [fst] in *; [apply Hk|done..].
Qed.

Lemma settles_for_each {A} (body : A → prog unit) (l : list A) :
  (∀ x, settles (body x)) → settles (for_each body l).
Proof.
  intros Hbody. induction l as [|x l IH]; [done|].
  cbn [for_each]. apply settles_bind; [apply Hbody|done].
Qed.

Lemma settles_report tabulate float_repr issues :
  settles (report tabulate float_repr issues).
Proof.
  unfold report.
  repeat match goal with
    | |- settles (_ ≫= _) => apply settles_bind; [|intros ?]
    | |- settles (for_each _ _) => apply settles_for_each; intros ?
    | |- settles (print _) => apply settles_print
    | |- settles (mret _) => apply settles_ret
    | |- settles (lift _) => apply settles_lift
    | |- settles (if ?b then _ else _) => destruct b
    | |- settled (score_issues _) => apply traverse_settled, score_issue_settled
    | |- settled (sort_issues _) => apply sort_issues_settled
    | |- settled (build_table _ _ _) => apply build_table_settled
    | |- settled (sorted _) => apply sorted_settled
    end.
Qed.

(** X11. Whatever the environment and the service, [main] comes to an end
    in one of three ways: it returns, it exits with status 1, or an
    exception is left uncaught. The process status is therefore 0 or 1, and
    0 only when [main] has returned. *)
Theorem main_exit_status server tabulate float_repr environ w :
  let o := (main server tabulate float_repr environ w).1 in
  (o = Ret tt ∨ o = Exit 1 ∨ ∃ e, o = Raise e)
  ∧ (exit_status o = Some 0 ∨ exit_status o = Some 1)
  ∧ (exit_status o = Some 0 ↔ o = Ret tt).
Proof.
  cbn zeta.
  assert ((main server tabulate float_repr environ w).1 = Ret tt
          ∨ (main server tabulate float_repr environ w).1 = Exit 1
          ∨ ∃ e, (main server tabulate float_repr environ w).1 = Raise e)
    as Hends.
  { destruct (falsy (environ !! "SONARQ_TOKEN")) eqn:Htoken.
    { rewrite main_without_token by done. by right; left. }
    rewrite main_with_token by done.
    destruct (get_issues_spec server (configured_client environ) 500
                (at_fetch environ w)) as (n & _ & Hrun).
    cbn zeta in Hrun.
    destruct (get_issues _ _ _ _) as [o w1]. cbn [fst snd] in Hrun.
    destruct Hrun as [(-> & _)|(? & ? & _ & _ & -> & _)]; [|by right; left].
    destruct (slice_to _ _) as [|x l]; [by left|].
    pose proof (settles_report tabulate float_repr (x :: l) w1) as Hreport.
    destruct (report _ _ _ _) as [[[]|c|e|] w2]; cbn [fst] in *;
      [by left|done| |done].
    right; right. by eexists. }
  split; [exact Hends|].
  destruct Hends as [->|[->|[e ->]]]; cbn; split; auto; split; done.
Qed.

(** ** The requests of [main] *)

Lemma get_issues_log server self limit w :
  ∃ n : nat,
    Z.of_nat n ≤ Z.max 0 limit
    ∧ sent (get_issues server self limit w).2
      = sent w ++ requests_from self 1 n.
Proof.
  destruct (get_issues_loop_bound server (Z.to_nat limit) self limit [] 1 w)
    as (n & Hn & Hsent & _).
  { unfold len. cbn. lia. }
  cbn zeta in Hn, Hsent. exists n.
  split; [unfold len in Hn; cbn in Hn; lia|].
  unfold get_issues, mbind, prog_bind.
  by destruct (get_issues_loop _ _ _ _ _ _ _) as [[l|c|e|] w1].
Qed.

(** X12. Every request [main] sends goes to the search URL under the base
    URL of the environment (by default https://sonarcloud.io, trailing
    slashes removed), authenticates with the token of the environment as
    user name and an empty password, and asks, for the project key of the
    environment (or the default one), for the open code smells of the branch
    main, in pages of 100 with a timeout of 10; the pages asked for are 1,
    2, 3, ... in this order, at most 500 of them. The requests sent before
    stay in the log as they were. *)
Theorem main_requests server tabulate float_repr environ w :
  let run := main server tabulate float_repr environ w in
  take (length (sent w)) (sent run.2) = sent w
  ∧ (length (sent run.2) ≤ length (sent w) + 500)%nat
  ∧ ∀ (i : nat) r,
      sent run.2 !! (length (sent w) + i)%nat = Some r →
      ∃ tok,
        environ !! "SONARQ_TOKEN" = Some tok ∧ tok ≠ ""
        ∧ r = {| req_url :=
                   rstrip "/" (default "https://sonarcloud.io"
                                 (environ !! "SONARQ_BASE_URL"))
                   +:+ "/api/issues/search";
                 req_auth := (tok, "");
                 componentKeys :=
                   default "FreeSideNomad_messaging-platform"
                     (environ !! "SONARQ_PROJECT_KEY");
                 branch := "main"; statuses := "OPEN"; types := "CODE_SMELL";
                 p := Z.of_nat i + 1; ps := 100; timeout := 10 |}.
Proof.
  cbn zeta.
  destruct (falsy (environ !! "SONARQ_TOKEN")) eqn:Htoken.
  { rewrite main_without_token by done. cbn [snd sent].
    split; [by rewrite take_ge|]. split; [lia|].
    intros i r Hi%lookup_lt_Some. lia. }
  rewrite main_with_token by done.
  destruct (get_issues_log server (configured_client environ) 500
              (at_fetch environ w)) as (n & Hn & Hlog).
  cbn [at_fetch sent] in Hlog.
  destruct (get_issues _ _ _ _) as [o w1]. cbn [snd] in Hlog.
  assert (∀ w2 : world, sent w2 = sent w1 →
    take (length (sent w)) (sent w2) = sent w
    ∧ (length (sent w2) ≤ length (sent w) + 500)%nat
    ∧ ∀ (i : nat) r,
        sent w2 !! (length (sent w) + i)%nat = Some r →
        ∃ tok,
          environ !! "SONARQ_TOKEN" = Some tok ∧ tok ≠ ""
          ∧ r = {| req_url :=
                     rstrip "/" (default "https://sonarcloud.io"
                                   (environ !! "SONARQ_BASE_URL"))
                     +:+ "/api/issues/search";
                   req_auth := (tok, "");
                   componentKeys :=
                     default "FreeSideNomad_messaging-platform"
                       (environ !! "SONARQ_PROJECT_KEY");
                   branch := "main"; statuses := "OPEN"; types := "CODE_SMELL";
                   p := Z.of_nat i + 1; ps := 100; timeout := 10 |}) as Hfin.
  { intros w2 ->. rewrite Hlog. split; [by rewrite take_app_length|].
    split; [rewrite length_app, length_requests_from; lia|].
    intros i r. rewrite lookup_app_r by lia.
    replace (length (sent w) + i - length (sent w))%nat with i by lia.
    intros [_ ->]%lookup_requests_from.
    destruct (environ !! "SONARQ_TOKEN") as [tok|] eqn:Htok; [|done].
    exists tok. split; [done|]. split.
    { intros ->. done. }
    unfold search_request, configured_client, new_client, page_size.
    cbn [base_url token project_key]. rewrite Htok.
    cbn [default from_option id]. f_equal. lia. }
  destruct o as [[|x l]|c|e|]; apply Hfin; [done| |done..].
  apply offline_report.
Qed.

Lemma main_requests_witness :
  sent (main (constant_service [] 0) no_table no_repr sample_environ
          (World [] [])).2 !! 0%nat
  = Some {| req_url := "https://sonarcloud.io/api/issues/search";
            req_auth := ("secret", "");
            componentKeys := "FreeSideNomad_messaging-platform";
            branch := "main"; statuses := "OPEN"; types := "CODE_SMELL";
            p := 1; ps := 100; timeout := 10 |}.
Proof.
  destruct (main_requests (constant_service [] 0) no_table no_repr
              sample_environ (World [] [])) as (_ & _ & Hrequests).
  cbn zeta in Hrequests.
  destruct (sent (main (constant_service [] 0) no_table no_repr sample_environ
                    (World [] [])).2 !! 0%nat) as [r|] eqn:Hr;
    [|vm_compute in Hr; discriminate Hr].
  destruct (Hrequests 0%nat r Hr) as (tok & Htok & _ & ->).
  vm_compute in Htok. injection Htok as <-.
  vm_compute. reflexivity.
Defined.

(** ** Ranking issues of one type *)

(** The ranking in terms of score classes: of two ranked issues, the class
    of the first may stand before the class of the second. *)
Lemma ranked_classes issues scored :
  score_issues issues = Ret scored →
  Forall (λ x : issue, ∃ s, x !! "severity" = Some (VStr s) ∧ s ∈ severity_order)
    issues →
  ∃ ranked,
    sort_issues scored = Ret ranked
    ∧ scored ≡ₚ ranked
    ∧ ∀ (i j : nat) (x y : issue),
        (i < j)%nat → ranked !! i = Some x → ranked !! j = Some y →
        ∃ cx cy,
          cx ∈ score_classes ∧ cy ∈ score_classes
          ∧ score_of x = Some cx.1 ∧ score_of y = Some cy.1
          ∧ severity_index x = Some cx.2 ∧ severity_index y = Some cy.2
          ∧ ranked_before cx cy = true.
Proof.
  intros Hscored Hranked.
  destruct (scored_keys _ _ Hscored Hranked) as (cs & Hkeys & Hinv).
  destruct (sort_issues_Ret _ _ Hkeys) as [Hsort Hperm].
  eexists. split; [exact Hsort|]. split; [exact Hperm|].
  set (pairs := zip (key_of_class <$> cs) scored) in *.
  assert (StronglySorted key_le (sort_keyed pairs)) as Hsorted.
  { apply (sort_keyed_sorted (λ k, ∃ c, c ∈ score_classes ∧ k = key_of_class c)).
    - intros ? ? (a & Ha & ->) (b & Hb & ->). by apply class_key_asym.
    - intros ? ? ? (a & Ha & ->) (b & Hb & ->) (c & Hc & ->).
      by apply class_key_le_trans.
    - eapply Forall_impl; [exact Hinv|]. cbn beta.
      intros a (c & Hc & Hk & _). by exists c. }
  rewrite <- (sort_keyed_perm pairs) in Hinv.
  intros i j x y Hij Hi Hj.
  apply list_lookup_fmap_Some in Hi as ([kx x0] & -> & Hi).
  apply list_lookup_fmap_Some in Hj as ([ky y0] & -> & Hj).
  pose proof (StronglySorted_lookup _ _ _ _ _ _ Hsorted Hij Hi Hj) as Hle.
  rewrite Forall_lookup in Hinv.
  destruct (Hinv _ _ Hi) as (cx & Hcx & Hkx & Hsx & Hix).
  destruct (Hinv _ _ Hj) as (cy & Hcy & Hky & Hsy & Hiy).
  unfold key_le in Hle. cbn [fst snd] in *. subst kx ky.
  exists cx, cy. repeat (split; [done|]).
  by apply class_ranked_before.
Qed.

(** What the scoring leaves on an issue with a ranked severity. *)
Lemma scored_fields (x x' : issue) s ty :
  score_issue x = Ret x' →
  x !! "severity" = Some (VStr s) → x !! "type" = Some ty →
  score_of x' = Some (get_priority_score (VStr s) ty)
  ∧ severity_index x'
    = match index severity_order (VStr s) with Ret i => Some i | _ => None end.
Proof.
  intros Hscore Hsev Hty.
  destruct (sort_key_scored _ _ Hscore)
    as (sev & ty' & Hsev0 & Hty0 & Hsev' & Hscore' & _).
  assert (sev = VStr s ∧ ty' = ty) as [-> ->] by (split; congruence).
  split; [done|]. unfold severity_index. by rewrite Hsev'.
Qed.

(** X13. When all the fetched issues have one and the same type, as the
    filter of the request asks for, and ranked severities, the ranking is
    by severity alone: of two ranked issues the first has a severity that
    is at least as high in BLOCKER, CRITICAL, MAJOR, MINOR, INFO. *)
Theorem ranking_of_one_type issues scored ty :
  score_issues issues = Ret scored →
  Forall (λ x : issue,
      (∃ s, x !! "severity" = Some (VStr s) ∧ s ∈ severity_order)
      ∧ x !! "type" = Some ty) issues →
  ∃ ranked,
    sort_issues scored = Ret ranked
    ∧ scored ≡ₚ ranked
    ∧ ∀ (i j : nat) (x y : issue),
        (i < j)%nat → ranked !! i = Some x → ranked !! j = Some y →
        ∃ ix iy,
          severity_index x = Some ix ∧ severity_index y = Some iy ∧ ix ≤ iy.
Proof.
  intros Hscored Hissues.
  destruct (ranked_classes issues scored Hscored) as (ranked & Hsort & Hperm & Hrank).
  { eapply Forall_impl; [exact Hissues|]. by intros x [? _]. }
  exists ranked. split; [exact Hsort|]. split; [exact Hperm|].
  (* every ranked issue is a scored issue of type [ty] *)
  assert (∀ x, x ∈ ranked →
            ∃ s, s ∈ severity_order
                 ∧ score_of x = Some (get_priority_score (VStr s) ty)
                 ∧ severity_index x
                   = match index severity_order (VStr s) with
                     | Ret i => Some i
                     | _ => None
                     end) as Hfields.
  { intros x Hx. rewrite <- Hperm in Hx.
    apply list_elem_of_lookup in Hx as [k Hk].
    apply traverse_Ret in Hscored.
    destruct (Forall2_lookup_r _ _ _ _ _ Hscored Hk) as (x0 & Hx0 & Hscore).
    rewrite Forall_lookup in Hissues.
    destruct (Hissues _ _ Hx0) as [(s & Hsev & Hs) Hty].
    exists s. split; [done|]. by apply (scored_fields x0). }
  intros i j x y Hij Hi Hj.
  destruct (Hrank i j x y Hij Hi Hj)
    as (cx & cy & _ & _ & Hsx & Hsy & Hix & Hiy & Hbefore).
  destruct (Hfields x) as (sx & Hsx_in & Hsx' & Hix');
    [apply list_elem_of_lookup; eauto|].
  destruct (Hfields y) as (sy & Hsy_in & Hsy' & Hiy');
    [apply list_elem_of_lookup; eauto|].
  unfold ranked_before in Hbefore. apply andb_true_iff in Hbefore as [Hleb _].
  rewrite Hsx in Hsx'. rewrite Hsy in Hsy'.
  injection Hsx' as Hcx. injection Hsy' as Hcy. rewrite Hcx, Hcy in Hleb.
  rewrite Hix', Hiy'. clear - Hleb Hsx_in Hsy_in.
  unfold get_priority_score in Hleb.
  pose proof (multiplier_cases ty) as Hm.
  unfold severity_order in Hsx_in, Hsy_in.
  enumerate Hsx_in; enumerate Hsy_in; enumerate Hm; rewrite Hm in Hleb;
    vm_compute in Hleb; try discriminate Hleb;
    (eexists _, _; split; [vm_compute; reflexivity|];
     split; [vm_compute; reflexivity|]; lia).
Qed.

Lemma ranking_of_one_type_witness :
  score_issues [info_issue; sample_issue]
    = Ret [with_score 1 info_issue; with_score 3 sample_issue]
  ∧ ∃ ranked,
      sort_issues [with_score 1 info_issue; with_score 3 sample_issue]
        = Ret ranked
      ∧ [with_score 1 info_issue; with_score 3 sample_issue] ≡ₚ ranked
      ∧ ∀ (i j : nat) (x y : issue),
          (i < j)%nat → ranked !! i = Some x → ranked !! j = Some y →
          ∃ ix iy,
            severity_index x = Some ix ∧ severity_index y = Some iy ∧ ix ≤ iy.
Proof.
  assert (score_issues [info_issue; sample_issue]
          = Ret [with_score 1 info_issue; with_score 3 sample_issue])
    as Hscored.
  { apply traverse_Ret. constructor; [|constructor; [|constructor]].
    - apply (score_issue_with_score _ (VStr "INFO") (VStr "CODE_SMELL"));
        vm_compute; reflexivity.
    - exact score_sample_issue. }
  split; [exact Hscored|].
  apply (ranking_of_one_type _ _ (VStr "CODE_SMELL") Hscored).
  constructor; [|constructor; [|constructor]].
  - split; [|vm_compute; reflexivity].
    exists "INFO". split; [vm_compute; reflexivity|by_decide].
  - split; [|vm_compute; reflexivity].
    exists "MAJOR". split; [vm_compute; reflexivity|by_decide].
Defined.

(** ** The report of standard issues *)

Lemma standard_with_score score (x : issue) :
  standard x → standard (with_score score x).
Proof.
  intros ((s & Hs & Hin) & (t & Ht) & (m & Hm) & (c & Hc)). unfold with_score.
  split; [exists s|split; [exists t|split; [exists m|exists c]]];
    try split; try done; by rewrite lookup_insert_ne.
Qed.

Lemma standard_well_formed (x : issue) : standard x → well_formed x.
Proof.
  intros ((s & Hs & _) & (t & Ht) & Hm & Hc).
  split; [by exists (VStr s)|]. split; [by exists (VStr t)|]. done.
Qed.

Lemma score_issues_standard issues :
  Forall standard issues →
  ∃ scored, score_issues issues = Ret scored ∧ Forall standard scored.
Proof.
  induction 1 as [|x issues Hx _ (scored & Hscored & Hstd)].
  { by exists []. }
  destruct Hx as ((s & Hs & Hin) & (t & Ht) & Hm & Hc).
  exists (with_score (get_priority_score (VStr s) (VStr t)) x :: scored).
  split.
  - unfold score_issues in *. cbn [traverse].
    rewrite (score_issue_with_score x (VStr s) (VStr t) _ Hs Ht eq_refl).
    cbn. by rewrite Hscored.
  - constructor; [|done]. apply standard_with_score.
    split; [by exists s|]. split; [by exists t|]. done.
Qed.

Lemma insert_value_strings (x : value) l :
  is_str x → Forall is_str l →
  ∃ r, insert_value x l = Ret r ∧ r ≡ₚ x :: l.
Proof.
  intros [s ->] Hl. induction Hl as [|y l [s' ->] _ (r & Hr & Hperm)].
  { by exists [VStr s]. }
  cbn [insert_value ltb]. unfold mbind, outcome_bind, obind.
  destruct (String.ltb s' s).
  - rewrite Hr. eexists. split; [done|]. rewrite Hperm. apply Permutation_swap.
  - by eexists.
Qed.

Lemma sorted_strings l :
  Forall is_str l → ∃ keys, sorted l = Ret keys ∧ keys ≡ₚ l.
Proof.
  induction 1 as [|x l Hx Hl (keys & Hkeys & Hperm)].
  { by exists []. }
  cbn [sorted]. rewrite Hkeys. cbn.
  destruct (insert_value_strings x keys Hx) as (r & Hr & Hperm').
  { by rewrite Hperm. }
  exists r. split; [done|]. by rewrite Hperm', Hperm.
Qed.

Lemma counter_incr_keys (k : value) (counts : counter) :
  is_str k → Forall is_str counts.*1 → Forall is_str (counter_incr k counts).*1.
Proof.
  intros Hk. induction counts as [|[k' n] counts IH]; cbn [counter_incr].
  { intros _. by repeat constructor. }
  intros [Hk' Hcounts]%Forall_cons. cbn [fst] in Hk'.
  destruct (same_key k' k); (constructor; [done|]); [done|by apply IH].
Qed.

Lemma build_table_type_keys top_issues idx t0 t :
  Forall standard top_issues →
  build_table idx top_issues t0 = Ret t →
  Forall is_str (type_counts t0).*1 → Forall is_str (type_counts t).*1.
Proof.
  intros Hstd. revert idx t0.
  induction Hstd as [|x top_issues Hx _ IH]; intros idx t0; cbn [build_table].
  { by intros [= <-]. }
  unfold mbind, outcome_bind, obind.
  destruct (table_row idx x t0) as [t1| | |] eqn:Hrow; [|done..].
  apply table_row_Ret in Hrow as (sev & ty & row & Hsev & Hty & ->).
  intros Hrun Hkeys. apply (IH _ _ Hrun). cbn [type_counts].
  apply counter_incr_keys; [|done].
  destruct Hx as (_ & (s & Hs) & _). exists s. congruence.
Qed.

Lemma for_each_severity_lines counts (l : list string) w :
  for_each (λ severity,
      let count := counter_get (VStr severity) counts in
      if 0 <? count
      then print ("  " +:+ severity +:+ ": " +:+ pretty count)
      else mret tt) l w
  = (Ret tt,
     World (stdout w
            ++ (severity ← l;
                if 0 <? counter_get (VStr severity) counts
                then ["  " +:+ severity +:+ ": "
                      +:+ pretty (counter_get (VStr severity) counts)]
                else []))
       (sent w)).
Proof.
  revert w. induction l as [|s l IH]; intros w.
  { cbn. rewrite app_nil_r. by destruct w. }
  cbn [for_each]. unfold mbind at 1, prog_bind at 1. cbn zeta.
  cbn [mbind list_bind]. destruct (0 <? counter_get (VStr s) counts).
  - unfold print at 1. rewrite IH. cbn [stdout sent].
    by rewrite <- app_assoc.
  - unfold mret at 1, prog_ret at 1. by rewrite IH.
Qed.

Lemma for_each_print {A} (line : A → string) (l : list A) w :
  for_each (λ x, print (line x)) l w
  = (Ret tt, World (stdout w ++ (line <$> l)) (sent w)).
Proof.
  revert w. induction l as [|x l IH]; intros w.
  { cbn. rewrite app_nil_r. by destruct w. }
  cbn [for_each]. unfold mbind at 1, prog_bind at 1, print at 1.
  rewrite IH. cbn [stdout sent fmap list_fmap]. by rewrite <- app_assoc.
Qed.

Lemma bind_lift_Ret {A B} (a : A) (k : A → prog B) w :
  (lift (Ret a) ≫= k) w = k a w.
Proof. reflexivity. Qed.

Lemma bind_print {B} line (k : unit → prog B) w :
  (print line ≫= k) w = k tt (World (stdout w ++ [line]) (sent w)).
Proof. reflexivity. Qed.

Lemma bind_Ret {A B} (m : prog A) (k : A → prog B) w a w' :
  m w = (Ret a, w') → (m ≫= k) w = k a w'.
Proof. intros Hm. unfold mbind, prog_bind. by rewrite Hm. Qed.

(** What the part of [main] after the fetch does with standard issues. *)
Lemma report_standard tabulate float_repr issues w :
  Forall standard issues →
  ∃ scored ranked t keys,
    score_issues issues = Ret scored
    ∧ sort_issues scored = Ret ranked
    ∧ build_table 1 (take 50 ranked) (Table [] [] []) = Ret t
    ∧ sorted (map fst (type_counts t)) = Ret keys
    ∧ keys ≡ₚ map fst (type_counts t)
    ∧ length (table_data t) = Nat.min 50 (length issues)
    ∧ report tabulate float_repr issues w
      = (Ret tt,
         World (stdout w
                ++ [nl +:+ rule;
                    "TOP 50 SONARQUBE ISSUES (sorted by priority)";
                    rule +:+ nl;
                    tabulate (table_data t) headers "grid";
                    nl +:+ rule;
                    "SUMMARY";
                    rule +:+ nl;
                    "Total issues fetched: " +:+ pretty (len issues);
                    "Displayed (top 50): "
                      +:+ pretty (Z.min 50 (len issues)) +:+ nl;
                    "Issues by Severity:"]
                ++ severity_lines (severity_counts t)
                ++ [nl +:+ "Issues by Type:"]
                ++ type_lines float_repr (type_counts t) keys)
           (sent w)).
Proof.
  intros Hstd.
  destruct (score_issues_standard issues Hstd) as (scored & Hscored & Hstd_scored).
  destruct (scored_keys issues scored Hscored) as (cs & Hkeys & _).
  { eapply Forall_impl; [exact Hstd|]. by intros x [? _]. }
  destruct (sort_issues_Ret _ _ Hkeys) as [Hsort Hperm].
  set (ranked := (sort_keyed (zip (key_of_class <$> cs) scored)).*2) in *.
  assert (length ranked = length issues) as Hlen_ranked.
  { rewrite <- Hperm. symmetry. apply traverse_Ret in Hscored.
    by apply Forall2_length in Hscored. }
  assert (Forall standard (take 50 ranked)) as Hstd_top.
  { apply Forall_take. by rewrite <- Hperm. }
  destruct (build_table_spec (take 50 ranked) 1 (Table [] [] []))
    as (t & rows & Hrun & Hdata & Hlen & _).
  { eapply Forall_impl; [exact Hstd_top|]. apply standard_well_formed. }
  cbn [table_data app] in Hdata.
  destruct (sorted_strings (map fst (type_counts t))) as (keys & Hsorted & Hkeys_perm).
  { by apply (build_table_type_keys _ _ _ _ Hstd_top Hrun). }
  exists scored, ranked, t, keys.
  split; [exact Hscored|]. split; [exact Hsort|]. split; [exact Hrun|].
  split; [exact Hsorted|]. split; [exact Hkeys_perm|].
  split.
  { rewrite Hdata, Hlen, length_take, Hlen_ranked. done. }
  unfold report. rewrite Hscored, bind_lift_Ret. cbn beta.
  rewrite Hsort, bind_lift_Ret. cbn beta zeta.
  rewrite Hrun, bind_lift_Ret. cbn beta.
  rewrite !bind_print.
  rewrite (bind_Ret _ _ _ _ _ (for_each_severity_lines _ _ _)).
  rewrite bind_print.
  rewrite Hsorted, bind_lift_Ret. cbn beta.
  rewrite for_each_print. cbn [stdout sent].
  assert (len ranked = len issues) as -> by (unfold len; by rewrite Hlen_ranked).
  assert (len (take 50 ranked) = Z.min 50 (len issues)) as ->.
  { unfold len. rewrite length_take, Hlen_ranked. lia. }
  unfold severity_lines, type_lines.
  repeat rewrite <- app_assoc. reflexivity.
Qed.

(** X14. Given fetched issues that are all standard (a ranked severity, and
    a type, a message and a component that are strings), the rest of [main]
    raises nothing and returns. It sends no request and prints, in this
    order: the title between two rules; the table [tabulate] draws from the
    rows of the first 50 ranked issues, which are [min (50, n)] rows for [n]
    issues; the summary heading; "Total issues fetched: n"; "Displayed (top
    50): min (50, n)"; a line for each of the five severities that a
    displayed issue has, in their fixed order, with its count; and a line
    for each type displayed, with its count. *)
Theorem report_of_standard_issues tabulate float_repr issues w :
  Forall standard issues →
  ∃ scored ranked t keys,
    score_issues issues = Ret scored
    ∧ sort_issues scored = Ret ranked
    ∧ build_table 1 (take 50 ranked) (Table [] [] []) = Ret t
    ∧ sorted (map fst (type_counts t)) = Ret keys
    ∧ keys ≡ₚ map fst (type_counts t)
    ∧ length (table_data t) = Nat.min 50 (length issues)
    ∧ report tabulate float_repr issues w
      = (Ret tt,
         World (stdout w
                ++ [nl +:+ rule;
                    "TOP 50 SONARQUBE ISSUES (sorted by priority)";
                    rule +:+ nl;
                    tabulate (table_data t) headers "grid";
                    nl +:+ rule;
                    "SUMMARY";
                    rule +:+ nl;
                    "Total issues fetched: " +:+ pretty (len issues);
                    "Displayed (top 50): "
                      +:+ pretty (Z.min 50 (len issues)) +:+ nl;
                    "Issues by Severity:"]
                ++ severity_lines (severity_counts t)
                ++ [nl +:+ "Issues by Type:"]
                ++ type_lines float_repr (type_counts t) keys)
           (sent w)).
Proof. exact (report_standard tabulate float_repr issues w). Qed.

Lemma standard_sample_issue : standard sample_issue.
Proof.
  split; [exists "MAJOR"; split; [vm_compute; reflexivity|by_decide]|].
  split; [|split]; eexists; vm_compute; reflexivity.
Defined.

Lemma standard_minor_issue : standard minor_issue.
Proof.
  split; [exists "MINOR"; split; [vm_compute; reflexivity|by_decide]|].
  split; [|split]; eexists; vm_compute; reflexivity.
Defined.

Lemma report_of_standard_issues_witness :
  ∃ scored ranked t keys,
    score_issues [minor_issue; sample_issue] = Ret scored
    ∧ sort_issues scored = Ret ranked
    ∧ build_table 1 (take 50 ranked) (Table [] [] []) = Ret t
    ∧ sorted (map fst (type_counts t)) = Ret keys
    ∧ keys ≡ₚ map fst (type_counts t)
    ∧ length (table_data t) = 2%nat
    ∧ report no_table no_repr [minor_issue; sample_issue] (World [] [])
      = (Ret tt,
         World ([nl +:+ rule;
                 "TOP 50 SONARQUBE ISSUES (sorted by priority)";
                 rule +:+ nl;
                 "";
                 nl +:+ rule;
                 "SUMMARY";
                 rule +:+ nl;
                 "Total issues fetched: 2";
                 "Displayed (top 50): 2" +:+ nl;
                 "Issues by Severity:"]
                ++ severity_lines (severity_counts t)
                ++ [nl +:+ "Issues by Type:"]
                ++ type_lines no_repr (type_counts t) keys)
           []).
Proof.
  destruct (report_of_standard_issues no_table no_repr
              [minor_issue; sample_issue] (World [] []))
    as (scored & ranked & t & keys & H1 & H2 & H3 & H4 & H5 & H6 & H7).
  { constructor; [exact standard_minor_issue|].
    constructor; [exact standard_sample_issue|constructor]. }
  exists scored, ranked, t, keys.
  split; [exact H1|]. split; [exact H2|]. split; [exact H3|].
  split; [exact H4|]. split; [exact H5|]. split; [exact H6|]. exact H7.
Defined.

(** ** The breakdown by type *)

Lemma string_compare_lt_trans a b c :
  String.compare a b = Lt → String.compare b c = Lt → String.compare a c = Lt.
Proof.
  revert b c. induction a as [|x a IH]; intros [|y b] [|z c]; cbn; try done.
  unfold Ascii.compare.
  destruct (N.compare_spec (N_of_ascii x) (N_of_ascii y)) as [Hxy|Hxy|Hxy];
    [|  |done];
    destruct (N.compare_spec (N_of_ascii y) (N_of_ascii z)) as [Hyz|Hyz|Hyz];
    try done; intros Hab Hbc.
  - rewrite Hxy, Hyz, N.compare_refl. by apply (IH b).
  - by rewrite (proj2 (N.compare_lt_iff _ _)) by lia.
  - by rewrite (proj2 (N.compare_lt_iff _ _)) by lia.
  - by rewrite (proj2 (N.compare_lt_iff _ _)) by lia.
Qed.

Lemma string_ltb_total a b :
  String.ltb a b = false → a ≠ b → String.ltb b a = true.
Proof.
  unfold String.ltb. rewrite (String.compare_antisym b a).
  destruct (String.compare a b) eqn:Hab; [|done..].
  by apply String.compare_eq_iff in Hab.
Qed.

Lemma string_ltb_trans a b c :
  String.ltb a b = true → String.ltb b c = true → String.ltb a c = true.
Proof.
  unfold String.ltb. intros Hab Hbc.
  rewrite (string_compare_lt_trans a b c); [done|..].
  - by destruct (String.compare a b).
  - by destruct (String.compare b c).
Qed.

(** Inserting a new name into names in ascending order. *)
Lemma insert_value_names s names :
  s ∉ names →
  StronglySorted (λ a b, String.ltb a b = true) names →
  ∃ names',
    insert_value (VStr s) (VStr <$> names) = Ret (VStr <$> names')
    ∧ StronglySorted (λ a b, String.ltb a b = true) names'
    ∧ names' ≡ₚ s :: names.
Proof.
  intros Hnew Hsorted. induction Hsorted as [|y names Hsorted IH Hall].
  { exists [s]. split; [done|]. split; [by repeat constructor|done]. }
  apply not_elem_of_cons in Hnew as [Hne Hnew].
  cbn [fmap list_fmap insert_value ltb]. unfold mbind, outcome_bind, obind.
  destruct (String.ltb y s) eqn:Hys.
  - destruct (IH Hnew) as (names' & -> & Hsorted' & Hperm).
    exists (y :: names'). split; [done|]. split.
    + constructor; [done|]. rewrite Hperm. by constructor.
    + rewrite Hperm. apply Permutation_swap.
  - exists (s :: y :: names). split; [done|]. split; [|done].
    pose proof (string_ltb_total _ _ Hys (not_eq_sym Hne)) as Hsy.
    constructor; [by constructor|]. constructor; [done|].
    eapply Forall_impl; [exact Hall|]. cbn beta. intros z.
    by apply string_ltb_trans.
Qed.

Lemma sorted_names names :
  NoDup names →
  ∃ names',
    sorted (VStr <$> names) = Ret (VStr <$> names')
    ∧ StronglySorted (λ a b, String.ltb a b = true) names'
    ∧ names' ≡ₚ names.
Proof.
  induction 1 as [|s names Hnew _ (names' & Hsorted & Hord & Hperm)].
  { exists []. split; [done|]. split; [constructor|done]. }
  cbn [fmap list_fmap sorted]. rewrite Hsorted. cbn.
  destruct (insert_value_names s names') as (names'' & Hins & Hord' & Hperm');
    [by rewrite Hperm|done|].
  exists names''. split; [done|]. split; [done|]. by rewrite Hperm', Hperm.
Qed.

(** The keys of a counter of strings after one more string is counted. *)
Lemma counter_incr_names s (counts : counter) names :
  counts.*1 = VStr <$> names →
  (counter_incr (VStr s) counts).*1
  = VStr <$> (if decide (s ∈ names) then names else names ++ [s]).
Proof.
  revert names. induction counts as [|[k n] counts IH]; intros [|s' names];
    cbn [fmap list_fmap counter_incr fst]; try done.
  intros [= -> Hkeys]. destruct (same_key (VStr s') (VStr s)) eqn:Hsame.
  - apply same_key_VStr_r in Hsame as [= ->].
    rewrite decide_True by (apply elem_of_cons; by left).
    cbn [fmap list_fmap fst]. by rewrite Hkeys.
  - assert (s' ≠ s) as Hne.
    { intros ->. by rewrite (proj2 (same_key_VStr_r _ _) eq_refl) in Hsame. }
    cbn [fmap list_fmap fst]. rewrite (IH names Hkeys).
    destruct (decide (s ∈ names)) as [Hin|Hout].
    + rewrite decide_True by (apply elem_of_cons; by right). done.
    + rewrite decide_False; [done|].
      intros [?|?]%elem_of_cons; [congruence|done].
Qed.

(** The type names counted by the table loop: those it started with and
    those of the issues displayed, each once. *)
Lemma build_table_type_names top_issues idx t0 t names0 :
  Forall standard top_issues →
  build_table idx top_issues t0 = Ret t →
  (type_counts t0).*1 = VStr <$> names0 → NoDup names0 →
  ∃ names,
    (type_counts t).*1 = VStr <$> names ∧ NoDup names
    ∧ ∀ s, s ∈ names ↔
           s ∈ names0 ∨ ∃ x : issue, x ∈ top_issues ∧ x !! "type" = Some (VStr s).
Proof.
  intros Hstd. revert idx t0 names0.
  induction Hstd as [|x top_issues Hx _ IH]; intros idx t0 names0;
    cbn [build_table].
  { intros [= <-] Hkeys Hnodup. exists names0. split; [done|]. split; [done|].
    intros s. split; [by left|]. intros [?|(x & Hx & _)]; [done|].
    by apply elem_of_nil in Hx. }
  unfold mbind, outcome_bind, obind.
  destruct (table_row idx x t0) as [t1| | |] eqn:Hrow; [|done..].
  apply table_row_Ret in Hrow as (sev & ty & row & Hsev & Hty & ->).
  destruct Hx as (_ & (s0 & Hs0) & _).
  assert (ty = VStr s0) as -> by congruence.
  intros Hrun Hkeys Hnodup.
  destruct (IH _ _ (if decide (s0 ∈ names0) then names0 else names0 ++ [s0]) Hrun)
    as (names & Hnames & Hnodup' & Hin).
  { cbn [type_counts]. by apply counter_incr_names. }
  { destruct (decide (s0 ∈ names0)); [done|].
    apply NoDup_app. split; [done|]. split; [|apply NoDup_singleton].
    intros z Hz ->%list_elem_of_singleton. done. }
  exists names. split; [done|]. split; [done|].
  intros s. rewrite Hin. split.
  - intros [Hs|(y & Hy & Hty')].
    + destruct (decide (s0 ∈ names0)); [by left|].
      apply elem_of_app in Hs as [Hs| ->%list_elem_of_singleton]; [by left|].
      right. exists x. split; [apply elem_of_cons; by left|done].
    + right. exists y. split; [apply elem_of_cons; by right|done].
  - intros [Hs|(y & [->|Hy]%elem_of_cons & Hty')].
    + left. destruct (decide (s0 ∈ names0)); [done|].
      apply elem_of_app. by left.
    + left. assert (s = s0) as -> by congruence.
      destruct (decide (s0 ∈ names0)); [done|].
      apply elem_of_app. right. by apply list_elem_of_singleton.
    + right. by exists y.
Qed.

(** X15. For standard issues on display, the breakdown by type has one
    line for each type that a displayed issue has, and no other; the lines
    are in strictly ascending order of the type names, and each gives the
    number of displayed issues of its type. *)
Theorem type_breakdown float_repr top_issues idx t :
  Forall standard top_issues →
  build_table idx top_issues (Table [] [] []) = Ret t →
  ∃ names,
    sorted (map fst (type_counts t)) = Ret (VStr <$> names)
    ∧ StronglySorted (λ a b, String.ltb a b = true) names
    ∧ (∀ s, s ∈ names ↔
            ∃ x : issue, x ∈ top_issues ∧ x !! "type" = Some (VStr s))
    ∧ type_lines float_repr (type_counts t) (VStr <$> names)
      = (λ s, "  " +:+ s +:+ ": " +:+ pretty (count_field "type" s top_issues))
          <$> names.
Proof.
  intros Hstd Hrun.
  destruct (build_table_type_names _ _ _ _ [] Hstd Hrun eq_refl)
    as (keys & Hkeys & Hnodup & Hin); [constructor|].
  destruct (sorted_names keys Hnodup) as (names & Hsorted & Hord & Hperm).
  exists names. split.
  { change (map fst (type_counts t)) with ((type_counts t).*1).
    by rewrite Hkeys. }
  split; [exact Hord|]. split.
  { intros s. rewrite Hperm, Hin. split; [|by right].
    intros [Hs|?]; [by apply elem_of_nil in Hs|done]. }
  unfold type_lines. rewrite <- list_fmap_compose. apply list_fmap_ext.
  intros i s _. cbn [compose to_str].
  destruct (build_table_counters _ _ _ _ Hrun) as (_ & _ & Htys).
  rewrite Htys. cbn [type_counts counter_get]. by rewrite Z.add_0_l.
Qed.

Lemma type_breakdown_witness :
  ∃ t names,
    build_table 1 [sample_issue; minor_issue; sample_issue] (Table [] [] [])
      = Ret t
    ∧ sorted (map fst (type_counts t)) = Ret (VStr <$> names)
    ∧ StronglySorted (λ a b, String.ltb a b = true) names
    ∧ type_lines no_repr (type_counts t) (VStr <$> names)
      = (λ s, "  " +:+ s +:+ ": "
              +:+ pretty (count_field "type" s
                            [sample_issue; minor_issue; sample_issue]))
          <$> names.
Proof.
  assert (Forall standard [sample_issue; minor_issue; sample_issue]) as Hstd.
  { constructor; [exact standard_sample_issue|].
    constructor; [exact standard_minor_issue|].
    constructor; [exact standard_sample_issue|constructor]. }
  destruct (build_table_spec [sample_issue; minor_issue; sample_issue] 1
              (Table [] [] [])) as (t & rows & Hrun & _).
  { eapply Forall_impl; [exact Hstd|]. apply standard_well_formed. }
  destruct (type_breakdown no_repr _ _ _ Hstd Hrun)
    as (names & Hsorted & Hord & _ & Hlines).
  exists t, names. split; [exact Hrun|]. split; [exact Hsorted|].
  split; [exact Hord|exact Hlines].
Defined.

(** ** The whole program against a paged service *)

(** X16. With a token in the environment and a service that holds standard
    issues [db], at least one, and serves them in pages, [main] fetches the
    first 500 of them with at most five requests, ranks them, and returns
    (exit status 0) having printed: the four lines before the fetch, the
    title, the table of [min (50, |db|)] rows, and the summary, which reports
    [min (500, |db|)] issues fetched and [min (50, |db|)] displayed. *)
Theorem main_of_paged_service tabulate float_repr environ (db : list issue) w :
  falsy (environ !! "SONARQ_TOKEN") = false →
  db ≠ [] → Forall standard db →
  ∃ (n : nat) scored ranked t keys,
    (1 ≤ n ≤ 5)%nat
    ∧ score_issues (take 500 db) = Ret scored
    ∧ sort_issues scored = Ret ranked
    ∧ build_table 1 (take 50 ranked) (Table [] [] []) = Ret t
    ∧ sorted (map fst (type_counts t)) = Ret keys
    ∧ length (table_data t) = Nat.min 50 (length db)
    ∧ main (paged_service db) tabulate float_repr environ w
      = (Ret tt,
         World (stdout w ++ banner environ
                ++ [nl +:+ rule;
                    "TOP 50 SONARQUBE ISSUES (sorted by priority)";
                    rule +:+ nl;
                    tabulate (table_data t) headers "grid";
                    nl +:+ rule;
                    "SUMMARY";
                    rule +:+ nl;
                    "Total issues fetched: " +:+ pretty (Z.min 500 (len db));
                    "Displayed (top 50): "
                      +:+ pretty (Z.min 50 (len db)) +:+ nl;
                    "Issues by Severity:"]
                ++ severity_lines (severity_counts t)
                ++ [nl +:+ "Issues by Type:"]
                ++ type_lines float_repr (type_counts t) keys)
           (sent w ++ requests_from (configured_client environ) 1 n))
    ∧ exit_status (main (paged_service db) tabulate float_repr environ w).1
      = Some 0.
Proof.
  intros Htoken Hdb Hstd.
  destruct (paged_get_issues db (configured_client environ) 500
              (at_fetch environ w)) as (n & Hfetch & Hstop & Hmin); [lia|].
  change (Z.to_nat 500) with 500%nat in Hfetch.
  assert (1 ≤ n ≤ 5)%nat as Hn.
  { split; [lia|]. destruct (decide (n ≤ 5)%nat); [done|].
    specialize (Hmin 5%nat ltac:(lia)). lia. }
  destruct (report_standard tabulate float_repr (take 500 db)
              (World (stdout (at_fetch environ w))
                 (sent (at_fetch environ w)
                  ++ requests_from (configured_client environ) 1 n)))
    as (scored & ranked & t & keys & Hscored & Hsort & Hrun & Hkeys & _
        & Hrows & Hreport).
  { by apply Forall_take. }
  exists n, scored, ranked, t, keys.
  split; [exact Hn|]. split; [exact Hscored|]. split; [exact Hsort|].
  split; [exact Hrun|]. split; [exact Hkeys|].
  split; [rewrite Hrows, length_take; lia|].
  assert (main (paged_service db) tabulate float_repr environ w
          = report tabulate float_repr (take 500 db)
              (World (stdout (at_fetch environ w))
                 (sent (at_fetch environ w)
                  ++ requests_from (configured_client environ) 1 n))) as ->.
  { rewrite main_with_token, Hfetch by done.
    destruct db as [|x db]; [done|]. reflexivity. }
  rewrite Hreport. split; [|done].
  cbn [at_fetch stdout sent].
  assert (len (take 500 db) = Z.min 500 (len db)) as ->
    by (unfold len; rewrite length_take; lia).
  replace (Z.min 50 (Z.min 500 (len db))) with (Z.min 50 (len db)) by lia.
  by rewrite <- !app_assoc.
Qed.

Lemma main_of_paged_service_witness :
  ∃ (n : nat) t,
    (1 ≤ n ≤ 5)%nat
    ∧ length (table_data t) = 50%nat
    ∧ exit_status (main (paged_service (replicate 80 sample_issue)) no_table
                     no_repr sample_environ (World [] [])).1 = Some 0.
Proof.
  destruct (main_of_paged_service no_table no_repr sample_environ
              (replicate 80 sample_issue) (World [] []))
    as (n & scored & ranked & t & keys & Hn & _ & _ & _ & _ & Hrows & _ & Hexit).
  - reflexivity.
  - discriminate.
  - apply Forall_replicate. exact standard_sample_issue.
  - exists n, t. split; [exact Hn|]. split; [exact Hrows|exact Hexit].
Defined.

(** ** A first page that already reaches the total *)

(** X17. When the first answer holds issues and reports a total that they
    already reach, or reports no total at all (the default is 0),
    [get_issues] stops after this one request: it returns the issues of the
    first page, cut at [limit], and never asks for a second page. *)
Theorem get_issues_single_page server self limit w data (x : issue) l :
  0 < limit →
  server (sent w) (search_request self 1) = Json data →
  issues_field data = Some (x :: l) →
  default 0 (total_field data) ≤ len (x :: l) →
  get_issues server self limit w
  = (Ret (take (Z.to_nat limit) (x :: l)),
     World (stdout w) (sent w ++ [search_request self 1])).
Proof.
  intros Hlimit Hanswer Hissues Htotal. unfold get_issues, mbind, prog_bind.
  destruct (Z.to_nat limit) as [|fuel] eqn:Hfuel; [lia|].
  rewrite get_issues_loop_unfold.
  destruct (Z.ltb_spec (len (@nil issue)) limit) as [_|Hge];
    [|unfold len in Hge; cbn in Hge; lia].
  cbn zeta. rewrite Hanswer, Hissues. cbn [default from_option id app].
  rewrite (proj2 (Z.leb_le _ _) Htotal).
  unfold mret, prog_ret. rewrite slice_to_take by (left; lia).
  by rewrite Hfuel.
Qed.

Lemma get_issues_single_page_witness :
  get_issues
    (λ _ _, Json (Payload (Some [sample_issue; minor_issue]) None))
    sample_client 500 (World [] [])
  = (Ret [sample_issue; minor_issue],
     World [] [search_request sample_client 1]).
Proof.
  apply (get_issues_single_page
           (λ _ _, Json (Payload (Some [sample_issue; minor_issue]) None))
           sample_client 500 (World [] [])
           (Payload (Some [sample_issue; minor_issue]) None)
           sample_issue [minor_issue]); [lia|reflexivity..|].
  unfold len. cbn. lia.
Defined.

(** ** An unranked severity, seen from [main] *)

Lemma sort_issues_unranked issues scored (x : issue) v :
  score_issues issues = Ret scored →
  x ∈ issues → x !! "severity" = Some v →
  (∀ s, v = VStr s → s ∉ severity_order) →
  sort_issues scored = Raise ValueError.
Proof.
  intros Hscored Hx Hsev Hv. apply traverse_Ret in Hscored.
  unfold sort_issues. rewrite (traverse_Raise sort_key ValueError); [done|..].
  - apply Forall_forall. intros x' Hx'.
    apply list_elem_of_lookup in Hx' as [i Hx'].
    destruct (Forall2_lookup_r _ _ _ _ _ Hscored Hx') as (x0 & _ & Hscore).
    destruct (sort_key_scored _ _ Hscore) as (sev & ty & _ & _ & _ & _ & ->).
    destruct (index_cases severity_order sev) as [[j ->]| ->]; [left|right]; eauto.
  - apply list_elem_of_lookup in Hx as [i Hx].
    destruct (Forall2_lookup_l _ _ _ _ _ Hscored Hx) as (x' & Hx' & Hscore).
    apply Exists_exists. exists x'. split; [apply list_elem_of_lookup; eauto|].
    destruct (sort_key_scored _ _ Hscore) as (sev & ty & Hsev' & _ & _ & _ & ->).
    assert (sev = v) as -> by congruence.
    by rewrite index_unknown.
Qed.

(** X18. If every fetched issue has a severity and a type, and one of them
    a severity that is none of BLOCKER, CRITICAL, MAJOR, MINOR, INFO, then
    [main] ends with an uncaught [ValueError]: exit status 1, and nothing is
    printed after the lines that precede the fetch — the other issues are
    not reported either. *)
Theorem unranked_severity_is_fatal server tabulate float_repr environ w w'
    issues (x : issue) v :
  falsy (environ !! "SONARQ_TOKEN") = false →
  get_issues server (configured_client environ) 500 (at_fetch environ w)
    = (Ret issues, w') →
  Forall (λ y : issue, is_Some (y !! "severity") ∧ is_Some (y !! "type")) issues →
  x ∈ issues → x !! "severity" = Some v →
  (∀ s, v = VStr s → s ∉ severity_order) →
  let run := main server tabulate float_repr environ w in
  run = (Raise ValueError, w')
  ∧ exit_status run.1 = Some 1
  ∧ stdout run.2 = stdout w ++ banner environ.
Proof.
  intros Htoken Hfetch Hfields Hx Hsev Hv. cbn zeta.
  rewrite main_with_token, Hfetch by done.
  assert (∃ scored, score_issues issues = Ret scored) as [scored Hscored].
  { clear -Hfields. induction Hfields as [|y l [[sev Hs] [ty Ht]] _ [scored IH]].
    - by exists [].
    - eexists. unfold score_issues in *. cbn [traverse].
      rewrite (score_issue_with_score y sev ty _ Hs Ht eq_refl). cbn.
      by rewrite IH. }
  assert (report tabulate float_repr issues w' = (Raise ValueError, w'))
    as Hreport.
  { unfold report. rewrite Hscored, bind_lift_Ret. cbn beta.
    by rewrite (sort_issues_unranked _ _ _ _ Hscored Hx Hsev Hv). }
  assert (match issues with
          | [] => (Ret (), World (stdout w' ++ ["No issues found."]) (sent w'))
          | _ :: _ => report tabulate float_repr issues w'
          end = (Raise ValueError, w')) as ->.
  { rewrite <- Hreport. destruct issues; [by apply elem_of_nil in Hx|done]. }
  split; [done|]. split; [done|]. cbn [snd].
  destruct (get_issues_spec server (configured_client environ) 500
              (at_fetch environ w)) as (n & _ & Hrun).
  cbn zeta in Hrun. rewrite Hfetch in Hrun. cbn [fst snd] in Hrun.
  destruct Hrun as [(_ & _ & -> & _)|(? & ? & _ & _ & ? & _)]; done.
Qed.

Lemma unranked_severity_is_fatal_witness :
  odd_issue !! "severity" = Some (VStr "UNRANKED")
  ∧ main (constant_service [sample_issue; odd_issue] 2) no_table no_repr
      sample_environ (World [] [])
    = (Raise ValueError,
       World (banner sample_environ)
         [search_request (configured_client sample_environ) 1]).
Proof.
  assert (odd_issue !! "severity" = Some (VStr "UNRANKED")) as Hsev
    by (vm_compute; reflexivity).
  split; [exact Hsev|].
  refine (proj1 (unranked_severity_is_fatal
                   (constant_service [sample_issue; odd_issue] 2)
                   no_table no_repr sample_environ (World [] []) _
                   [sample_issue; odd_issue] odd_issue (VStr "UNRANKED")
                   _ _ _ _ Hsev _)).
  - reflexivity.
  - unfold get_issues, mbind, prog_bind.
    change (Z.to_nat 500) with (S (Z.to_nat 499)).
    rewrite get_issues_loop_unfold. reflexivity.
  - repeat constructor; eexists; vm_compute; reflexivity.
  - apply elem_of_cons. right. apply elem_of_cons. by left.
  - intros s [= <-]. by_decide.
Defined.

(** ** Ties in the ranking *)

Section Stability.

Context {A : Type} (K : num * Z → Prop) (P : num * Z → bool).
Implicit Types l : list ((num * Z) * A).
Hypothesis unordered :
  ∀ a b, K a → K b → P a = true → P b = true → key_ltb a b = false.

(** Insertion moves [x] behind smaller elements only, none of which is
    selected by [P] when [x] is. *)
Lemma insert_sorted_filter k (x : A) l :
  K k → Forall (λ a, K a.1) l →
  List.filter (λ a, P a.1) (insert_sorted k x l)
  = List.filter (λ a, P a.1) ((k, x) :: l).
Proof using unordered.
  intros Hk. induction l as [|[k' y] l IH]; intros HK; [done|].
  apply Forall_cons in HK as [Hk' HK]. cbn [insert_sorted].
  destruct (key_ltb k' k) eqn:Hlt; [|done].
  cbn [List.filter fst] in *. rewrite (IH HK).
  destruct (P k') eqn:Hp'; [|done]. destruct (P k) eqn:Hp; [|done].
  by rewrite (unordered k' k) in Hlt.
Qed.

Lemma sort_keyed_filter l :
  Forall (λ a, K a.1) l →
  List.filter (λ a, P a.1) (sort_keyed l) = List.filter (λ a, P a.1) l.
Proof using unordered.
  induction l as [|[k x] l IH]; intros HK; [done|].
  apply Forall_cons in HK as [Hk HK]. cbn [sort_keyed].
  rewrite insert_sorted_filter; [|done|by rewrite sort_keyed_perm].
  cbn [List.filter]. by rewrite IH.
Qed.

End Stability.

Lemma filter_fmap {A B} (f : A → B) (p : B → bool) (l : list A) :
  List.filter p (f <$> l) = f <$> List.filter (λ a, p (f a)) l.
Proof.
  induction l as [|a l IH]; [done|]. cbn [fmap list_fmap List.filter].
  fold (f <$> l). rewrite IH. by destruct (p (f a)).
Qed.

(** Keys of score classes that are equivalent to one of them are not
    ordered, and they are the keys of the classes with the same score and
    rank. *)
Lemma class_key_eqv_unordered z a b :
  z ∈ score_classes → a ∈ score_classes → b ∈ score_classes →
  key_eqv (key_of_class z) (key_of_class a) = true →
  key_eqv (key_of_class z) (key_of_class b) = true →
  key_ltb (key_of_class a) (key_of_class b) = false.
Proof.
  intros Hz Ha Hb Hza Hzb.
  pose proof (forallb2_elem_of
    (λ z a, forallb (λ b,
       implb (key_eqv (key_of_class z) (key_of_class a)
              && key_eqv (key_of_class z) (key_of_class b))
             (negb (key_ltb (key_of_class a) (key_of_class b)))) score_classes)
    score_classes) as Hall.
  specialize (Hall ltac:(vm_compute; reflexivity) z a Hz Ha). cbn beta in Hall.
  rewrite forallb_forall in Hall.
  specialize (Hall b (proj1 (list_elem_of_In _ _) Hb)).
  rewrite Hza, Hzb in Hall. by apply negb_true_iff in Hall.
Qed.

Lemma class_key_eqv z a :
  z ∈ score_classes → a ∈ score_classes →
  key_eqv (key_of_class z) (key_of_class a)
  = PrimFloat.eqb z.1 a.1 && (z.2 =? a.2).
Proof.
  intros Hz Ha.
  pose proof (forallb2_elem_of
    (λ z a, Bool.eqb (key_eqv (key_of_class z) (key_of_class a))
                     (PrimFloat.eqb z.1 a.1 && (z.2 =? a.2)))
    score_classes) as Hall.
  specialize (Hall ltac:(vm_compute; reflexivity) z a Hz Ha). cbn beta in Hall.
  by apply Bool.eqb_prop in Hall.
Qed.

(** X19. The ranking is stable: among the scored issues with ranked
    severities, those tied with an issue [z] (equal score, same severity)
    stand after the sort in the order in which they stood before it, which
    is the order in which they were fetched. *)
Theorem ranking_keeps_ties_in_order issues scored :
  score_issues issues = Ret scored →
  Forall (λ x : issue, ∃ s, x !! "severity" = Some (VStr s) ∧ s ∈ severity_order)
    issues →
  ∃ ranked,
    sort_issues scored = Ret ranked
    ∧ ∀ z : issue, z ∈ scored →
        List.filter (tied z) ranked = List.filter (tied z) scored.
Proof.
  intros Hscored Hranked.
  destruct (scored_keys _ _ Hscored Hranked) as (cs & Hkeys & Hinv).
  destruct (sort_issues_Ret _ _ Hkeys) as [Hsort _].
  eexists. split; [exact Hsort|]. intros z Hz.
  set (pairs := zip (key_of_class <$> cs) scored) in *.
  assert (pairs.*2 = scored) as Hsnd.
  { apply snd_zip. apply traverse_Ret, Forall2_length in Hkeys. lia. }
  assert (∃ cz, cz ∈ score_classes
                ∧ score_of z = Some cz.1 ∧ severity_index z = Some cz.2)
    as (cz & Hcz & Hsz & Hiz).
  { rewrite <- Hsnd in Hz. apply list_elem_of_fmap in Hz as (a & -> & Ha).
    rewrite Forall_forall in Hinv.
    destruct (Hinv a Ha) as (c & Hc & _ & Hs & Hi). by exists c. }
  (* on the pairs, being tied with [z] is a property of the key *)
  assert (∀ l : list ((num * Z) * issue),
            Forall (λ a, ∃ c, c ∈ score_classes ∧ a.1 = key_of_class c
                              ∧ score_of a.2 = Some c.1
                              ∧ severity_index a.2 = Some c.2) l →
            List.filter (tied z) l.*2
            = (List.filter (λ a, key_eqv (key_of_class cz) a.1) l).*2)
    as Hkey.
  { intros l Hl. rewrite filter_fmap. f_equal.
    apply List.filter_ext_in. intros a Ha%list_elem_of_In.
    rewrite Forall_forall in Hl.
    destruct (Hl a Ha) as (c & Hc & -> & Hs & Hi).
    unfold tied. rewrite Hsz, Hiz, Hs, Hi. by rewrite class_key_eqv. }
  rewrite <- Hsnd. rewrite (Hkey pairs Hinv).
  rewrite Hkey by (by rewrite sort_keyed_perm). f_equal.
  apply (sort_keyed_filter (λ k, ∃ c, c ∈ score_classes ∧ k = key_of_class c)).
  - intros ? ? (a & Ha & ->) (b & Hb & ->). by apply class_key_eqv_unordered.
  - eapply Forall_impl; [exact Hinv|]. cbn beta.
    intros a (c & Hc & Hk & _). by exists c.
Qed.

Lemma ranking_keeps_ties_in_order_witness :
  score_issues [sample_issue; info_issue; twin_issue]
    = Ret [with_score 3 sample_issue; with_score 1 info_issue;
           with_score 3 twin_issue]
  ∧ ∃ ranked,
      sort_issues [with_score 3 sample_issue; with_score 1 info_issue;
                   with_score 3 twin_issue] = Ret ranked
      ∧ ∀ z : issue,
          z ∈ [with_score 3 sample_issue; with_score 1 info_issue;
               with_score 3 twin_issue] →
          List.filter (tied z) ranked
          = List.filter (tied z)
              [with_score 3 sample_issue; with_score 1 info_issue;
               with_score 3 twin_issue].
Proof.
  assert (score_issues [sample_issue; info_issue; twin_issue]
          = Ret [with_score 3 sample_issue; with_score 1 info_issue;
                 with_score 3 twin_issue]) as Hscored.
  { apply traverse_Ret.
    constructor; [|constructor; [|constructor; [|constructor]]].
    - exact score_sample_issue.
    - apply (score_issue_with_score _ (VStr "INFO") (VStr "CODE_SMELL"));
        vm_compute; reflexivity.
    - apply (score_issue_with_score _ (VStr "MAJOR") (VStr "CODE_SMELL"));
        vm_compute; reflexivity. }
  split; [exact Hscored|].
  apply (ranking_keeps_ties_in_order _ _ Hscored).
  constructor; [|constructor; [|constructor; [|constructor]]].
  - exists "MAJOR". split; [vm_compute; reflexivity|by_decide].
  - exists "INFO". split; [vm_compute; reflexivity|by_decide].
  - exists "MAJOR". split; [vm_compute; reflexivity|by_decide].
Defined.
